(** * Sudoku-Solver: the backtracking solver of [solve.py], embedded and verified

    The Python class [Sudoku] owns one field, [_puzzle], a list of nine
    lists of nine integers.  The embedding keeps that shape: the grid is
    a [list (list Z)], subscripts follow Python's rules (negative
    subscripts count from the end, anything else out of range raises
    [IndexError]), and the methods that mutate [self._puzzle] become
    state transformers over a record [Sudoku]. *)

From Stdlib Require Import ZArith Lia Ascii String Sorted Permutation DecimalString.
From stdpp Require Import base tactics option list list_numbers.

Local Open Scope Z_scope.

(** ** Results of a Python call *)

Inductive exn : Type := IndexError | ValueError.

(** A call returns a value, raises, or (in the model only) runs out of
    the recursion budget given to [solve]. *)
Inductive result (A : Type) : Type :=
  | Ret (a : A)
  | Raise (e : exn)
  | OutOfFuel.
Arguments Ret {A} a.
Arguments Raise {A} e.
Arguments OutOfFuel {A}.

#[global] Instance result_ret : MRet result := @Ret.
#[global] Instance result_bind : MBind result := λ A B f m,
  match m with
  | Ret a => f a
  | Raise e => Raise e
  | OutOfFuel => OutOfFuel
  end.

(** ** Python sequences *)

(** [range(a, b)] *)
Definition range (a b : Z) : list Z := seqZ a (b - a).

(** The position a subscript [k] denotes in a sequence of [len] items. *)
Definition norm_index (len : nat) (k : Z) : option nat :=
  let k' := if k <? 0 then k + Z.of_nat len else k in
  if (0 <=? k') && (k' <? Z.of_nat len) then Some (Z.to_nat k') else None.

(** [l[k]] *)
Definition getitem {A} (l : list A) (k : Z) : result A :=
  match norm_index (length l) k with
  | Some n => match l !! n with Some x => Ret x | None => Raise IndexError end
  | None => Raise IndexError
  end.

(** [l[k] = x], returning the list after the store. *)
Definition setitem {A} (l : list A) (k : Z) (x : A) : result (list A) :=
  match norm_index (length l) k with
  | Some n => Ret (<[n:=x]> l)
  | None => Raise IndexError
  end.

(** ** The object *)

Abbreviation grid := (list (list Z)) (only parsing).

(** Program points recorded while [solve] runs.  [Write i j v g]: the
    store [self._puzzle[i][j] = v] has just produced grid [g].
    [Check i j guess g]: [_is_valid_guess(i, j, guess)] is being called
    from the candidate loop on grid [g]. *)
Inductive event : Type :=
  | Write (i j v : Z) (g : grid)
  | Check (i j guess : Z) (g : grid).

(** [_puzzle] is the Python attribute.  [history] is ghost: it is only
    ever extended, newest event first, and never read by the methods. *)
Record Sudoku : Type := mkSudoku {
  _puzzle : grid;
  history : list event
}.

Definition record (e : event) (self : Sudoku) : Sudoku :=
  mkSudoku (_puzzle self) (e :: history self).

(** [self._puzzle[i][j]] *)
Definition puzzle_get (self : Sudoku) (i j : Z) : result Z :=
  row ← getitem (_puzzle self) i; getitem row j.

(** State transformers that may raise. *)
Definition M (A : Type) : Type := Sudoku → result A * Sudoku.

Definition ret {A} (a : A) : M A := λ self, (Ret a, self).

Definition bind {A B} (m : M A) (k : A → M B) : M B := λ self,
  match m self with
  | (Ret a, self') => k a self'
  | (Raise e, self') => (Raise e, self')
  | (OutOfFuel, self') => (OutOfFuel, self')
  end.

Definition read {A} (f : Sudoku → result A) : M A := λ self, (f self, self).

Declare Scope py_scope.
Delimit Scope py_scope with py.
Notation "'let*' x ':=' m 'in' k" := (bind m (λ x, k))
  (at level 10, x name, m at level 100, k at level 200, only parsing) : py_scope.
Notation "m ';;' k" := (bind m (λ _, k))
  (at level 100, k at level 200, right associativity, only parsing) : py_scope.

(** Ghost: note that the legality check is about to run. *)
Definition note_check (i j guess : Z) : M unit := λ self,
  (Ret (), record (Check i j guess (_puzzle self)) self).

(** [self._puzzle[i][j] = v].  The row object [self._puzzle[i]] is
    fetched, then mutated in place; rows are distinct objects (each is a
    fresh [list(...)] in [_create_puzzle_grid]), so only row [i] of the
    grid changes. *)
Definition puzzle_set (i j v : Z) : M unit := λ self,
  let g := _puzzle self in
  match norm_index (length g) i with
  | None => (Raise IndexError, self)
  | Some n =>
      match g !! n with
      | None => (Raise IndexError, self)
      | Some row =>
          match setitem row j v with
          | Ret row' =>
              let g' := <[n:=row']> g in
              (Ret (), mkSudoku g' (Write i j v g' :: history self))
          | Raise e => (Raise e, self)
          | OutOfFuel => (OutOfFuel, self)
          end
      end
  end.

(** ** [_next_location] *)

Definition _next_location (i j : Z) : option (Z * Z) :=
  let next_j := (j + 1) mod 9 in
  if next_j =? 0 then
    let next_i := (i + 1) mod 9 in
    if negb (next_i =? 0) then Some (next_i, next_j) else None
  else Some (i, next_j).

(** ** [_is_valid_guess] *)

(** A [for] loop whose body returns from the enclosing function as soon
    as the test succeeds: [Ret true] when some item passed the test (the
    items after it are not visited), [Ret false] when the loop ran to
    its end. *)
Fixpoint any_of (test : Z → result bool) (ks : list Z) : result bool :=
  match ks with
  | [] => Ret false
  | k :: ks' =>
      hit ← test k;
      if hit : bool then Ret true else any_of test ks'
  end.

Definition holds (self : Sudoku) (guess : Z) (var_row var_col : Z) : result bool :=
  v ← puzzle_get self var_row var_col; Ret (v =? guess).

Definition _is_valid_guess (self : Sudoku) (i j guess : Z) : result bool :=
  in_row ← any_of (λ var_col, holds self guess i var_col) (range 0 9);
  if in_row : bool then Ret false else
  in_col ← any_of (λ var_row, holds self guess var_row j) (range 0 9);
  if in_col : bool then Ret false else
  let start_x := (i / 3) * 3 in
  let start_y := (j / 3) * 3 in
  in_box ← any_of (λ var_row,
              any_of (λ var_col, holds self guess var_row var_col)
                     (range start_y (start_y + 3)))
            (range start_x (start_x + 3));
  if in_box : bool then Ret false else Ret true.

(** ** [solve] *)

Section candidates.
(** The recursive call [self.solve]. *)
Variable solve_rec : Z → Z → M bool.
Variables i j : Z.

Local Open Scope py_scope.

(** The loop [for guess in range(1, 10)].  [ret true] is the loop's
    [return True]; [ret false] means the loop ran out of candidates
    and control falls to the statements after it. *)
Fixpoint try_guesses (guesses : list Z) : M bool :=
  match guesses with
  | [] => ret false
  | guess :: rest =>
      note_check i j guess;;
      let* ok := read (λ self, _is_valid_guess self i j guess) in
      if ok : bool then
        puzzle_set i j guess;;
        match _next_location i j with
        | None => ret true
        | Some (next_i, next_j) =>
            let* solved := solve_rec next_i next_j in
            if solved : bool then ret true else try_guesses rest
        end
      else try_guesses rest
  end.
End candidates.

Local Open Scope py_scope.

(** [fuel] bounds the depth of the recursion; each call of [solve] uses
    one unit. *)
Fixpoint solve (fuel : nat) (i j : Z) : M bool :=
  match fuel with
  | O => λ self, (OutOfFuel, self)
  | S fuel' =>
      let* v := read (λ self, puzzle_get self i j) in
      if negb (v =? 0) then
        match _next_location i j with
        | None => ret true
        | Some (next_i, next_j) => solve fuel' next_i next_j
        end
      else
        let* returned := try_guesses (solve fuel') i j (range 1 10) in
        if returned : bool then ret true
        else puzzle_set i j 0;; ret false
  end.

Local Close Scope py_scope.

(** ** The constructor *)

(** A Python [str] is modelled as the list of its code points. *)
Definition str : Type := list N.

(** The characters of a string literal. *)
Definition chars_of (s : string) : str := map N_of_ascii (list_ascii_of_string s).

(** [range(0, stop, step)]; a zero step raises [ValueError]. *)
Definition range_step (stop step : nat) : result (list nat) :=
  match step with
  | O => Raise ValueError
  | S _ => Ret (map (λ k, k * step)%nat (seq 0 ((stop + step - 1) / step)))
  end.

(** [string[x : x + n]]; slices clamp to the end of the string. *)
Definition slice (string : str) (x n : nat) : str := take n (drop x string).

Definition _split_string_interval (string : str) (n : nat) : result (list str) :=
  xs ← range_step (length string) n;
  Ret (map (λ x, slice string x n) xs).

(** The decimal digits beyond ASCII, as the Unicode database of the
    interpreter lists them (the code points of category Nd with their
    values: U+0663 is a 3).  The database is no part of the repository,
    so the model takes it as a parameter; all that is assumed of it is
    that a decimal digit has a value from 0 to 9. *)
Class UnicodeDb : Type := {
  decimal : N → option Z;
  decimal_range : ∀ c d, decimal c = Some d → 0 ≤ d ≤ 9
}.

(** The digit a character denotes for [int]: ['0'] to ['9'] denote
    themselves, no other ASCII character is a digit, and beyond ASCII
    the database decides. *)
Definition digit_value `{db : UnicodeDb} (c : N) : option Z :=
  if (48 <=? c)%N && (c <=? 57)%N then Some (Z.of_N c - 48)
  else if (c <? 128)%N then None
  else decimal c.

(** [int(s)] for the strings the constructor passes, which hold one
    character each: a decimal digit gives its value, any other
    character raises.  (Longer literals, signs and padding never reach
    this call and are not modelled.) *)
Definition py_int `{db : UnicodeDb} (s : str) : result Z :=
  match s with
  | [c] => match digit_value c with Some d => Ret d | None => Raise ValueError end
  | _ => Raise ValueError
  end.

(** [list(map(f, xs))]: the first failing item aborts the whole call. *)
Fixpoint list_map {A B} (f : A → result B) (xs : list A) : result (list B) :=
  match xs with
  | [] => Ret []
  | x :: xs' => y ← f x; ys ← list_map f xs'; Ret (y :: ys)
  end.

Definition _create_puzzle_grid `{db : UnicodeDb} (string : str) : result grid :=
  chunks ← _split_string_interval string 9;
  list_map (λ string_digits,
              chars ← _split_string_interval string_digits 1;
              list_map py_int chars) chunks.

(** [Sudoku(string)]: the new object, with an empty history. *)
Definition __init__ `{db : UnicodeDb} (string : str) : result Sudoku :=
  puzzle ← _create_puzzle_grid string;
  Ret (mkSudoku puzzle []).

(** [Sudoku("...")] on a string literal. *)
Definition of_literal `{db : UnicodeDb} (s : string) : result Sudoku :=
  __init__ (chars_of s).

(** ** [__str__] *)

Definition newline : N := 10%N.
Definition blank : N := 32%N.

(** [str(n)] for an integer: its decimal numeral, with a leading minus
    sign when negative. *)
Definition py_str (n : Z) : str :=
  chars_of (NilZero.string_of_int (Z.to_int n)).

(** [sep.join(parts)] *)
Fixpoint join (sep : str) (parts : list str) : str :=
  match parts with
  | [] => []
  | part :: rest =>
      match rest with
      | [] => part
      | _ :: _ => part ++ sep ++ join sep rest
      end
  end.

(** The loop of [__str__], [output] being its accumulator. *)
Definition __str__ (self : Sudoku) : str :=
  foldl (λ output row, output ++ (join [blank] (map py_str row) ++ [newline]))
        [] (_puzzle self).

(** * Specification vocabulary *)

(** ** Positions and cells *)

(** A position is a pair (row, column). *)
Definition pos : Type := Z * Z.

(** Inside the 9x9 grid. *)
Definition inr (p : pos) : Prop := 0 ≤ p.1 < 9 ∧ 0 ≤ p.2 < 9.

(** Row-major rank of a position. *)
Definition idx (p : pos) : Z := 9 * p.1 + p.2.

(** Nine rows of nine cells. *)
Definition wf (g : grid) : Prop :=
  length g = 9%nat ∧ Forall (λ row : list Z, length row = 9%nat) g.

(** The value at a position (0 outside the grid). *)
Definition cell (g : grid) (p : pos) : Z :=
  default 0 (g !! Z.to_nat p.1 ≫= λ row : list Z, row !! Z.to_nat p.2).

(** Two positions see each other when they share a row, a column or a
    3x3 box. *)
Definition peer (p q : pos) : Prop :=
  p.1 = q.1 ∨ p.2 = q.2 ∨ (p.1 / 3 = q.1 / 3 ∧ p.2 / 3 = q.2 / 3).

(** No cell that [p] sees (including [p] itself) holds [v]. *)
Definition legal (g : grid) (p : pos) (v : Z) : Prop :=
  ∀ q, inr q → peer p q → cell g q ≠ v.

(** What the three scans of [_is_valid_guess] decide. *)
Definition clear (g : grid) (i j value : Z) : Prop :=
  (∀ c, 0 ≤ c < 9 → cell g (i, c) ≠ value)
  ∧ (∀ r, 0 ≤ r < 9 → cell g (r, j) ≠ value)
  ∧ (∀ r c, (i / 3) * 3 ≤ r ≤ (i / 3) * 3 + 2 →
            (j / 3) * 3 ≤ c ≤ (j / 3) * 3 + 2 → cell g (r, c) ≠ value).

(** ** What the search may produce *)

(** Cells that are filled in [g] hold the same value in [g']. *)
Definition keeps (g g' : grid) : Prop :=
  ∀ q, inr q → cell g q ≠ 0 → cell g' q = cell g q.

(** The value at [q] is a digit that no other cell seen from [q] holds. *)
Definition settled (g' : grid) (q : pos) : Prop :=
  1 ≤ cell g' q ≤ 9 ∧ ∀ r, inr r → peer q r → r ≠ q → cell g' r ≠ cell g' q.

(** [g'] arises from [g] by filling blanks in a settled way. *)
Definition reach (g g' : grid) : Prop :=
  wf g' ∧ keeps g g'
  ∧ ∀ q, inr q → cell g q = 0 → cell g' q ≠ 0 → settled g' q.

(** [g'] completes [g] from rank [k] on: the cells before rank [k] and
    the filled cells of [g] are as in [g]; every blank of [g] at rank
    [k] or later is settled. *)
Definition completion (k : Z) (g g' : grid) : Prop :=
  wf g'
  ∧ (∀ q, inr q → idx q < k ∨ cell g q ≠ 0 → cell g' q = cell g q)
  ∧ (∀ q, inr q → k ≤ idx q → cell g q = 0 → settled g' q).

(** Row-major lexicographic order on grids. *)
Definition lex_lt (g g' : grid) : Prop :=
  ∃ q, inr q ∧ (∀ r, inr r → idx r < idx q → cell g r = cell g' r)
       ∧ cell g q < cell g' q.

Definition lex_le (g g' : grid) : Prop := g = g' ∨ lex_lt g g'.

(** ** The contract of [solve] *)

(** What each recorded program point satisfies, relative to the grid
    [g] the call started from. *)
Definition ev_ok (g : grid) (e : event) : Prop :=
  match e with
  | Write i j _ h => inr (i, j) ∧ cell g (i, j) = 0 ∧ reach g h
  | Check i j guess h => 0 ≤ cell h (i, j) < guess
  end.

(** The events a call added to the history. *)
Definition logged (g : grid) (self self' : Sudoku) : Prop :=
  ∃ evs, history self' = evs ++ history self ∧ Forall (ev_ok g) evs.

(** Outcome of a call started at rank [k] from state [self]. *)
Definition post (k : Z) (self : Sudoku) (b : bool) (self' : Sudoku) : Prop :=
  logged (_puzzle self) self self'
  ∧ if b
    then completion k (_puzzle self) (_puzzle self')
         ∧ ∀ g'', completion k (_puzzle self) g'' → lex_le (_puzzle self') g''
    else _puzzle self' = _puzzle self
         ∧ ∀ g'', ¬ completion k (_puzzle self) g''.

(** On a 9x9 grid the call returns a boolean, with outcome [post]. *)
Definition meets (k : Z) (m : M bool) : Prop :=
  ∀ self, wf (_puzzle self) → ∃ b self', m self = (Ret b, self') ∧ post k self b self'.

(** The step both branches of [solve] take once the cell is decided. *)
Definition advance (solve_rec : Z → Z → M bool) (i j : Z) : M bool :=
  match _next_location i j with
  | None => ret true
  | Some (next_i, next_j) => solve_rec next_i next_j
  end.

(** ** Rows, columns and boxes *)

Inductive house : Type :=
  | Row (i : Z)
  | Col (j : Z)
  | Box (bi bj : Z).

Definition house_ok (h : house) : Prop :=
  match h with
  | Row i => 0 ≤ i < 9
  | Col j => 0 ≤ j < 9
  | Box bi bj => 0 ≤ bi < 3 ∧ 0 ≤ bj < 3
  end.

(** The nine positions of a house; box [(bi, bj)] spans rows
    [3 bi .. 3 bi + 2] and columns [3 bj .. 3 bj + 2]. *)
Definition cells_of (h : house) : list pos :=
  match h with
  | Row i => (λ c, (i, c)) <$> range 0 9
  | Col j => (λ r, (r, j)) <$> range 0 9
  | Box bi bj =>
      range (3 * bi) (3 * bi + 3) ≫= λ r,
        (λ c, (r, c)) <$> range (3 * bj) (3 * bj + 3)
  end.

Definition values (g : grid) (h : house) : list Z := cell g <$> cells_of h.

(** The non-zero values of every house are pairwise different. *)
Definition no_repeats (g : grid) : Prop :=
  ∀ h, house_ok h → NoDup (filter (λ v, v ≠ 0) (values g h)).

(** Every house holds each of 1, ..., 9 exactly once. *)
Definition solved (g : grid) : Prop :=
  ∀ h, house_ok h → values g h ≡ₚ range 1 10.

(** Every cell is a digit, 0 standing for a blank. *)
Definition digits (g : grid) : Prop := ∀ q, inr q → 0 ≤ cell g q ≤ 9.

(** The same constraint, cell against cell. *)
Definition distinct (g : grid) : Prop :=
  ∀ q r, inr q → inr r → peer q r → q ≠ r → cell g q ≠ 0 → cell g q ≠ cell g r.

(** The 27 houses. *)
Definition all_houses : list house :=
  (Row <$> range 0 9) ++ (Col <$> range 0 9)
  ++ (range 0 3 ≫= λ bi, Box bi <$> range 0 3).

(** A checker for [no_repeats] on concrete grids. *)
Definition no_repeatsb (g : grid) : bool :=
  forallb (λ h, bool_decide (NoDup (filter (λ v, v ≠ 0) (values g h)))) all_houses.

(** ** Concrete puzzles *)

(** A solved grid with four cells blanked: (0,0), (0,1), (8,0), (8,1). *)
Definition four_blanks : Sudoku := mkSudoku
  [[0; 0; 4; 6; 7; 8; 9; 1; 2]; [6; 7; 2; 1; 9; 5; 3; 4; 8];
   [1; 9; 8; 3; 4; 2; 5; 6; 7]; [8; 5; 9; 7; 6; 1; 4; 2; 3];
   [4; 2; 6; 8; 5; 3; 7; 9; 1]; [7; 1; 3; 9; 2; 4; 8; 5; 6];
   [9; 6; 1; 5; 3; 7; 2; 8; 4]; [2; 8; 7; 4; 1; 9; 6; 3; 5];
   [0; 0; 5; 2; 8; 6; 1; 7; 9]] [].

(** The same solved grid with (0,1) overwritten by a second 5 and
    (8,8) blanked. *)
Definition double_five : Sudoku := mkSudoku
  [[5; 5; 4; 6; 7; 8; 9; 1; 2]; [6; 7; 2; 1; 9; 5; 3; 4; 8];
   [1; 9; 8; 3; 4; 2; 5; 6; 7]; [8; 5; 9; 7; 6; 1; 4; 2; 3];
   [4; 2; 6; 8; 5; 3; 7; 9; 1]; [7; 1; 3; 9; 2; 4; 8; 5; 6];
   [9; 6; 1; 5; 3; 7; 2; 8; 4]; [2; 8; 7; 4; 1; 9; 6; 3; 5];
   [3; 4; 5; 2; 8; 6; 1; 7; 0]] [].

(** Fully filled, with two 5s in row 0. *)
Definition filled_double_five : Sudoku := mkSudoku
  [[5; 5; 4; 6; 7; 8; 9; 1; 2]; [6; 7; 2; 1; 9; 5; 3; 4; 8];
   [1; 9; 8; 3; 4; 2; 5; 6; 7]; [8; 5; 9; 7; 6; 1; 4; 2; 3];
   [4; 2; 6; 8; 5; 3; 7; 9; 1]; [7; 1; 3; 9; 2; 4; 8; 5; 6];
   [9; 6; 1; 5; 3; 7; 2; 8; 4]; [2; 8; 7; 4; 1; 9; 6; 3; 5];
   [3; 4; 5; 2; 8; 6; 1; 7; 9]] [].

(** Row 8 starts with a 9, so no digit fits the blank at (8,8). *)
Definition dead_end : Sudoku := mkSudoku
  [[5; 3; 4; 6; 7; 8; 9; 1; 2]; [6; 7; 2; 1; 9; 5; 3; 4; 8];
   [1; 9; 8; 3; 4; 2; 5; 6; 7]; [8; 5; 9; 7; 6; 1; 4; 2; 3];
   [4; 2; 6; 8; 5; 3; 7; 9; 1]; [7; 1; 3; 9; 2; 4; 8; 5; 6];
   [9; 6; 1; 5; 3; 7; 2; 8; 4]; [2; 8; 7; 4; 1; 9; 6; 3; 5];
   [9; 4; 5; 2; 8; 6; 1; 7; 0]] [].

(** The grid after the first store on [four_blanks], a 3 at (0,0). *)
Definition after_first_store : grid :=
  [[3; 0; 4; 6; 7; 8; 9; 1; 2]; [6; 7; 2; 1; 9; 5; 3; 4; 8];
   [1; 9; 8; 3; 4; 2; 5; 6; 7]; [8; 5; 9; 7; 6; 1; 4; 2; 3];
   [4; 2; 6; 8; 5; 3; 7; 9; 1]; [7; 1; 3; 9; 2; 4; 8; 5; 6];
   [9; 6; 1; 5; 3; 7; 2; 8; 4]; [2; 8; 7; 4; 1; 9; 6; 3; 5];
   [0; 0; 5; 2; 8; 6; 1; 7; 9]].

(** ** Reading the input string *)

(** The cell a digit character is read as. *)
Definition value `{db : UnicodeDb} (c : N) : Z := default 0 (digit_value c).

(** Every character is a decimal digit: one of ['0'] to ['9'], or a
    decimal digit of another script. *)
Definition all_digits `{db : UnicodeDb} (string : str) : Prop :=
  Forall (λ c, digit_value c ≠ None) string.

#[global] Instance all_digits_dec `{db : UnicodeDb} (string : str) :
  Decision (all_digits string) :=
  Forall_dec (λ c, digit_value c ≠ None) string.

(** Every character is one of ['0'] to ['9']. *)
Definition ascii_digits (string : str) : Prop :=
  Forall (λ c, (48 ≤ c ≤ 57)%N) string.

(** A fragment of the database, for the examples: the Arabic-Indic
    digits U+0660 to U+0669. *)
Definition arabic_indic : UnicodeDb.
Proof.
  refine {| decimal := λ c, if (1632 <=? c)%N && (c <=? 1641)%N
                            then Some (Z.of_N c - 1632) else None |}.
  intros c d. destruct (N.leb_spec 1632 c), (N.leb_spec c 1641); simpl; intros [=]; lia.
Defined.

(** The body of the loop in [_create_puzzle_grid]. *)
Definition parse_row `{db : UnicodeDb} (string_digits : str) : result (list Z) :=
  chars ← _split_string_interval string_digits 1; list_map py_int chars.

(** [string] cut into pieces of nine characters. *)
Definition chunks (string : str) : list str :=
  map (λ x, slice string x 9)
      (map (λ k, k * 9)%nat (seq 0 ((length string + 9 - 1) / 9))).

(** ** Printing and traversal *)

(** The character of a digit. *)
Definition digit_char (v : Z) : N := (48 + Z.to_N v)%N.

(** A printed grid with the blanks and line ends taken out. *)
Definition unformat (text : str) : str :=
  List.filter (λ c, negb (N.eqb c blank || N.eqb c newline)) text.

(** What [__str__] appends for one row. *)
Definition line (row : list Z) : str :=
  join [blank] (map py_str row) ++ [newline].

(** [n] applications of [_next_location], as the recursion of [solve]
    performs them. *)
Fixpoint steps (n : nat) (p : pos) : option pos :=
  match n with
  | O => Some p
  | S n' =>
      match _next_location p.1 p.2 with
      | None => None
      | Some q => steps n' q
      end
  end.

(** A solved grid, and the same grid with (8,8) blanked. *)
Definition full_grid : grid :=
  [[5; 3; 4; 6; 7; 8; 9; 1; 2]; [6; 7; 2; 1; 9; 5; 3; 4; 8];
   [1; 9; 8; 3; 4; 2; 5; 6; 7]; [8; 5; 9; 7; 6; 1; 4; 2; 3];
   [4; 2; 6; 8; 5; 3; 7; 9; 1]; [7; 1; 3; 9; 2; 4; 8; 5; 6];
   [9; 6; 1; 5; 3; 7; 2; 8; 4]; [2; 8; 7; 4; 1; 9; 6; 3; 5];
   [3; 4; 5; 2; 8; 6; 1; 7; 9]].

Definition one_blank : Sudoku := mkSudoku
  [[5; 3; 4; 6; 7; 8; 9; 1; 2]; [6; 7; 2; 1; 9; 5; 3; 4; 8];
   [1; 9; 8; 3; 4; 2; 5; 6; 7]; [8; 5; 9; 7; 6; 1; 4; 2; 3];
   [4; 2; 6; 8; 5; 3; 7; 9; 1]; [7; 1; 3; 9; 2; 4; 8; 5; 6];
   [9; 6; 1; 5; 3; 7; 2; 8; 4]; [2; 8; 7; 4; 1; 9; 6; 3; 5];
   [3; 4; 5; 2; 8; 6; 1; 7; 0]] [].

(** * Properties *)

(** ** Reading and writing cells *)

Lemma norm_index_inr (len : nat) (k : Z) :
  0 ≤ k < Z.of_nat len → norm_index len k = Some (Z.to_nat k).
Proof.
  intros Hk. unfold norm_index.
  destruct (Z.ltb_spec k 0); [lia|].
  destruct (Z.leb_spec 0 k); [|lia].
  destruct (Z.ltb_spec k (Z.of_nat len)); [done|lia].
Qed.

Lemma wf_row (g : grid) (n : nat) :
  wf g → (n < 9)%nat → ∃ row, g !! n = Some row ∧ length row = 9%nat.
Proof.
  intros [Hlen Hrows] Hn.
  destruct (lookup_lt_is_Some_2 g n) as [row Hrow]; [lia|].
  exists row. split; [done|].
  by eapply (Forall_lookup_1 _ _ _ _ Hrows).
Qed.

Lemma wf_cell (g : grid) (p : pos) :
  wf g → inr p →
  ∃ row, g !! Z.to_nat p.1 = Some row ∧ length row = 9%nat
         ∧ row !! Z.to_nat p.2 = Some (cell g p).
Proof.
  intros Hwf [Hi Hj].
  destruct (wf_row g (Z.to_nat p.1) Hwf) as (row & Hrow & Hlen); [lia|].
  exists row. split_and!; [done..|].
  destruct (lookup_lt_is_Some_2 row (Z.to_nat p.2)) as [v Hv]; [lia|].
  unfold cell. rewrite Hrow. simpl. by rewrite Hv.
Qed.

Lemma puzzle_get_wf (self : Sudoku) (i j : Z) :
  wf (_puzzle self) → inr (i, j) →
  puzzle_get self i j = Ret (cell (_puzzle self) (i, j)).
Proof.
  intros Hwf Hp.
  destruct (wf_cell _ _ Hwf Hp) as (row & Hrow & Hlen & Hv).
  destruct Hp as [Hi Hj]. simpl in *.
  unfold puzzle_get, getitem.
  rewrite norm_index_inr by (destruct Hwf as [-> _]; lia).
  cbn. rewrite Hrow. cbn.
  rewrite norm_index_inr by lia. by rewrite Hv.
Qed.

Lemma puzzle_set_wf (self : Sudoku) (i j v : Z) :
  wf (_puzzle self) → inr (i, j) →
  ∃ g', puzzle_set i j v self = (Ret (), mkSudoku g' (Write i j v g' :: history self))
        ∧ wf g' ∧ cell g' (i, j) = v
        ∧ ∀ q, q ≠ (i, j) → inr q → cell g' q = cell (_puzzle self) q.
Proof.
  intros Hwf Hp.
  destruct (wf_cell _ _ Hwf Hp) as (row & Hrow & Hlen & Hv).
  destruct Hp as [Hi Hj]. simpl in *.
  exists (<[Z.to_nat i := <[Z.to_nat j := v]> row]> (_puzzle self)).
  split_and!.
  - unfold puzzle_set, setitem.
    rewrite norm_index_inr by (destruct Hwf as [-> _]; lia).
    cbn. rewrite Hrow. by rewrite norm_index_inr by lia.
  - destruct Hwf as [Hl Hrows]. split; [by rewrite length_insert|].
    apply Forall_insert; [done|]. by rewrite length_insert.
  - unfold cell. simpl.
    rewrite list_lookup_insert_eq by (destruct Hwf as [-> _]; lia). simpl.
    by rewrite list_lookup_insert_eq by lia.
  - intros [i' j'] Hne [Hi' Hj']. unfold cell. simpl in *.
    destruct (decide (Z.to_nat i = Z.to_nat i')) as [Heq|Hneq].
    + rewrite <- Heq.
      rewrite list_lookup_insert_eq by (destruct Hwf as [-> _]; lia).
      rewrite Hrow. simpl.
      rewrite list_lookup_insert_ne; [done|].
      intros Hj2. apply Hne. f_equal; lia.
    + by rewrite list_lookup_insert_ne.
Qed.

Lemma grid_ext (g g' : grid) :
  wf g → wf g' → (∀ q, inr q → cell g q = cell g' q) → g = g'.
Proof.
  intros Hwf Hwf' Heq.
  apply list_eq_same_length with 9%nat; [apply (proj1 Hwf')|apply (proj1 Hwf)|].
  intros n row row' Hn Hrow Hrow'.
  assert (length row = 9%nat) as Hl
    by (eapply (Forall_lookup_1 _ _ _ _ (proj2 Hwf)); done).
  assert (length row' = 9%nat) as Hl'
    by (eapply (Forall_lookup_1 _ _ _ _ (proj2 Hwf')); done).
  apply list_eq_same_length with 9%nat; [done..|].
  intros m v v' Hm Hv Hv'.
  specialize (Heq (Z.of_nat n, Z.of_nat m)).
  unfold cell in Heq. simpl in Heq. rewrite !Nat2Z.id in Heq.
  rewrite Hrow, Hrow' in Heq. simpl in Heq. rewrite Hv, Hv' in Heq.
  apply Heq. split; simpl; lia.
Qed.

(** ** [_next_location] and the row-major order *)

Lemma small_cases (k : Z) :
  0 ≤ k < 9 → k = 0 ∨ k = 1 ∨ k = 2 ∨ k = 3 ∨ k = 4 ∨ k = 5 ∨ k = 6 ∨ k = 7 ∨ k = 8.
Proof. lia. Qed.

Lemma next_location_Some (i j i' j' : Z) :
  inr (i, j) → _next_location i j = Some (i', j') →
  inr (i', j') ∧ idx (i', j') = idx (i, j) + 1.
Proof.
  intros [Hi Hj]. simpl in *.
  destruct (small_cases i Hi) as [->|[->|[->|[->|[->|[->|[->|[->| ->]]]]]]]];
  destruct (small_cases j Hj) as [->|[->|[->|[->|[->|[->|[->|[->| ->]]]]]]]];
  vm_compute; intros [= <- <-]; repeat split; congruence.
Qed.

Lemma next_location_None (i j : Z) :
  inr (i, j) → _next_location i j = None → idx (i, j) = 80.
Proof.
  intros [Hi Hj]. simpl in *.
  destruct (small_cases i Hi) as [->|[->|[->|[->|[->|[->|[->|[->| ->]]]]]]]];
  destruct (small_cases j Hj) as [->|[->|[->|[->|[->|[->|[->|[->| ->]]]]]]]];
  vm_compute; congruence.
Qed.

(** ** The legality check *)

Lemma peer_sym (p q : pos) : peer p q → peer q p.
Proof. unfold peer. intuition congruence. Qed.

Lemma any_of_existsb (test : Z → result bool) (P : Z → bool) (ks : list Z) :
  (∀ k, k ∈ ks → test k = Ret (P k)) → any_of test ks = Ret (existsb P ks).
Proof.
  induction ks as [|k ks IH]; intros Htest; [done|].
  simpl. rewrite (Htest k) by left. cbn.
  destruct (P k); [done|]. apply IH. intros k' Hk'. apply Htest. by right.
Qed.

Lemma holds_wf (self : Sudoku) (guess r c : Z) :
  wf (_puzzle self) → inr (r, c) →
  holds self guess r c = Ret (cell (_puzzle self) (r, c) =? guess).
Proof. intros Hwf Hp. unfold holds. by rewrite puzzle_get_wf. Qed.

Lemma elem_of_range (a b k : Z) : k ∈ range a b ↔ a ≤ k < b.
Proof. unfold range. rewrite elem_of_seqZ. lia. Qed.

Lemma existsb_range_false (P : Z → bool) (a b : Z) :
  existsb P (range a b) = false ↔ ∀ k, a ≤ k < b → P k = false.
Proof.
  rewrite <- not_true_iff_false, existsb_exists. split.
  - intros Hno k Hk. apply not_true_iff_false. intros HP. apply Hno.
    exists k. split; [|done]. by apply list_elem_of_In, elem_of_range.
  - intros Hall (k & Hin & HP). apply list_elem_of_In, elem_of_range in Hin.
    rewrite Hall in HP; done.
Qed.

Lemma box_bounds (i r : Z) :
  0 ≤ i < 9 → (i / 3) * 3 ≤ r < (i / 3) * 3 + 3 → 0 ≤ r < 9 ∧ i / 3 = r / 3.
Proof.
  intros Hi Hr.
  destruct (small_cases i Hi) as [->|[->|[->|[->|[->|[->|[->|[->| ->]]]]]]]];
  change (0 / 3) with 0 in *; change (1 / 3) with 0 in *;
  change (2 / 3) with 0 in *; change (3 / 3) with 1 in *;
  change (4 / 3) with 1 in *; change (5 / 3) with 1 in *;
  change (6 / 3) with 2 in *; change (7 / 3) with 2 in *;
  change (8 / 3) with 2 in *;
  (split; [lia|]);
  first [ symmetry; apply Z.div_small; lia
        | apply (Z.div_unique r 3 1 (r - 3)); lia
        | apply (Z.div_unique r 3 2 (r - 6)); lia ].
Qed.

Lemma box_bounds_inv (i r : Z) :
  i / 3 = r / 3 → (i / 3) * 3 ≤ r < (i / 3) * 3 + 3.
Proof.
  intros ->. pose proof (Z.div_mod r 3). pose proof (Z.mod_pos_bound r 3). lia.
Qed.

Lemma is_valid_guess_clear (self : Sudoku) (i j value : Z) :
  wf (_puzzle self) → inr (i, j) →
  ∃ b : bool, _is_valid_guess self i j value = Ret b
              ∧ (b = true ↔ clear (_puzzle self) i j value).
Proof.
  intros Hwf [Hi Hj]. simpl in *. unfold _is_valid_guess.
  set (g := _puzzle self).
  set (P := λ r c : Z, cell g (r, c) =? value).
  rewrite (any_of_existsb (λ c, holds self value i c) (P i)); cycle 1.
  { intros c Hc%elem_of_range. apply holds_wf; [done|]. split; simpl; lia. }
  cbn. destruct (existsb (P i) (range 0 9)) eqn:Hrow.
  { eexists. split; [done|]. split; [done|]. intros (Hr & _ & _).
    apply existsb_exists in Hrow as (c & Hc%list_elem_of_In%elem_of_range & Hhit).
    apply Z.eqb_eq in Hhit. by destruct (Hr c). }
  rewrite (any_of_existsb (λ r, holds self value r j) (λ r, P r j)); cycle 1.
  { intros r Hr%elem_of_range. apply holds_wf; [done|]. split; simpl; lia. }
  cbn. destruct (existsb (λ r, P r j) (range 0 9)) eqn:Hcol.
  { eexists. split; [done|]. split; [done|]. intros (_ & Hc & _).
    apply existsb_exists in Hcol as (r & Hr%list_elem_of_In%elem_of_range & Hhit).
    apply Z.eqb_eq in Hhit. by destruct (Hc r). }
  set (sx := i / 3 * 3). set (sy := j / 3 * 3).
  rewrite (any_of_existsb _ (λ r, existsb (P r) (range sy (sy + 3)))); cycle 1.
  { intros r Hr%elem_of_range. apply any_of_existsb.
    intros c Hc%elem_of_range. apply holds_wf; [done|].
    destruct (box_bounds i r Hi Hr), (box_bounds j c Hj Hc). by split. }
  cbn.
  destruct (existsb (λ r, existsb (P r) (range sy (sy + 3))) (range sx (sx + 3)))
    eqn:Hbox.
  { eexists. split; [done|]. split; [done|]. intros (_ & _ & Hb).
    apply existsb_exists in Hbox as (r & Hr%list_elem_of_In%elem_of_range & Hhit).
    apply existsb_exists in Hhit as (c & Hc%list_elem_of_In%elem_of_range & Hhit).
    apply Z.eqb_eq in Hhit. destruct (Hb r c); [subst sx; lia|subst sy; lia|done]. }
  eexists. split; [done|]. split; [|done]. intros _.
  rewrite existsb_range_false in Hrow, Hcol, Hbox.
  split_and!.
  - intros c Hc. by apply Z.eqb_neq, Hrow.
  - intros r Hr. by apply Z.eqb_neq, Hcol.
  - intros r c Hr Hc. apply Z.eqb_neq.
    assert (sx ≤ r < sx + 3) as Hr' by (subst sx; lia).
    specialize (Hbox r Hr'). rewrite existsb_range_false in Hbox.
    apply Hbox. subst sy; lia.
Qed.

Lemma clear_legal (g : grid) (i j value : Z) :
  inr (i, j) → clear g i j value ↔ legal g (i, j) value.
Proof.
  intros [Hi Hj]. simpl in *. split.
  - intros (Hr & Hc & Hb) [r c] [Hqr Hqc] [Heq|[Heq|[Hbr Hbc]]]; simpl in *.
    + subst r. by apply Hr.
    + subst c. by apply Hc.
    + apply box_bounds_inv in Hbr, Hbc. apply Hb; lia.
  - intros Hlegal. split_and!.
    + intros c Hc. apply Hlegal; [by split|]. by left.
    + intros r Hr. apply Hlegal; [by split|]. right. by left.
    + intros r c Hr Hc.
      destruct (box_bounds i r Hi) as [? ?]; [lia|].
      destruct (box_bounds j c Hj) as [? ?]; [lia|].
      apply Hlegal; [by split|]. right. right. by split.
Qed.

Lemma is_valid_guess_legal (self : Sudoku) (i j value : Z) :
  wf (_puzzle self) → inr (i, j) →
  ∃ b : bool, _is_valid_guess self i j value = Ret b
              ∧ (b = true ↔ legal (_puzzle self) (i, j) value).
Proof.
  intros Hwf Hp.
  destruct (is_valid_guess_clear self i j value Hwf Hp) as (b & Hb & Hiff).
  exists b. split; [done|]. by rewrite Hiff, clear_legal.
Qed.

(** ** Completions *)

Lemma idx_inj (p q : pos) : inr p → inr q → idx p = idx q → p = q.
Proof.
  destruct p as [a b], q as [c d]. unfold inr, idx. simpl.
  intros ? ? ?. f_equal; lia.
Qed.

Lemma reach_refl (g : grid) : wf g → reach g g.
Proof. intros Hwf. split_and!; [done|by intros q|]. by intros q _ ->. Qed.

Lemma reach_trans (g g1 h : grid) : reach g g1 → reach g1 h → reach g h.
Proof.
  intros (Hwf1 & Hk1 & Hs1) (Hwf & Hk & Hs). split_and!; [done|..].
  - intros q Hq Hnz. rewrite Hk; [by apply Hk1|done|]. by rewrite Hk1.
  - intros q Hq Hz Hnz.
    destruct (decide (cell g1 q = 0)) as [Hz1|Hnz1]; [by apply Hs|].
    destruct (Hs1 q Hq Hz Hnz1) as [Hdigit Hdiff].
    assert (cell h q = cell g1 q) as Hq1 by by apply Hk.
    split; [by rewrite Hq1|]. rewrite Hq1. intros r Hr Hpeer Hne.
    destruct (decide (cell g1 r = 0)) as [Hrz|Hrnz].
    + destruct (decide (cell h r = 0)) as [Hhz|Hhnz]; [lia|].
      destruct (Hs r Hr Hrz Hhnz) as [_ Hd].
      rewrite <- Hq1. intros Heq. apply (Hd q Hq); [by apply peer_sym|done..].
    + rewrite (Hk r Hr Hrnz). by apply Hdiff.
Qed.

Lemma completion_reach (k : Z) (g g' : grid) : completion k g g' → reach g g'.
Proof.
  intros (Hwf & Hsame & Hset). split_and!; [done|..].
  - intros q Hq Hnz. apply Hsame; auto.
  - intros q Hq Hz Hnz. destruct (decide (idx q < k)) as [Hlt|Hge].
    + rewrite Hsame in Hnz; auto. done.
    + apply Hset; [done|lia|done].
Qed.

Lemma completion_full (k : Z) (g g' : grid) (q : pos) :
  completion k g g' → inr q → k ≤ idx q → cell g' q ≠ 0.
Proof.
  intros (Hwf & Hsame & Hset) Hq Hk.
  destruct (decide (cell g q = 0)) as [Hz|Hnz].
  - destruct (Hset q Hq Hk Hz) as [? _]. lia.
  - rewrite Hsame; auto.
Qed.

Lemma completion_end (g g' : grid) : wf g → completion 81 g g' ↔ g' = g.
Proof.
  intros Hwf. split.
  - intros (Hwf' & Hsame & _). apply grid_ext; [done..|].
    intros q Hq. apply Hsame; [done|]. left. destruct Hq. unfold idx. lia.
  - intros ->. split_and!; [done|done|].
    intros q [? ?] Hk. unfold idx in Hk. lia.
Qed.

Lemma completion_skip (p : pos) (g g' : grid) :
  inr p → cell g p ≠ 0 →
  completion (idx p) g g' ↔ completion (idx p + 1) g g'.
Proof.
  intros Hp Hnz. split; intros (Hwf & Hsame & Hset); (split_and!; [done|..]).
  - intros q Hq [Hlt|Hq0]; [|by auto].
    destruct (decide (q = p)) as [->|Hne]; [by auto|].
    apply Hsame; [done|]. left.
    assert (idx q ≠ idx p) by (intros ?; by apply Hne, idx_inj). lia.
  - intros q Hq Hk. apply Hset; [done|lia].
  - intros q Hq [Hlt|Hq0]; apply Hsame; auto. left; lia.
  - intros q Hq Hk Hz. apply Hset; [done| |done].
    assert (idx q ≠ idx p) by (intros ?%idx_inj; [by subst|done..]). lia.
Qed.

Section place.
(** [g1] is [g] with the blank at [p] replaced by [v]. *)
Context (p : pos) (g g1 : grid) (v : Z).
Hypothesis Hp : inr p.
Hypothesis Hblank : cell g p = 0.
Hypothesis Hv : cell g1 p = v.
Hypothesis Hother : ∀ q, q ≠ p → inr q → cell g1 q = cell g q.

Lemma idx_lt_succ (q : pos) : inr q → q ≠ p → idx q < idx p + 1 → idx q < idx p.
Proof.
  intros Hq Hne Hlt.
  assert (idx q ≠ idx p) by (intros ?; by apply Hne, idx_inj). lia.
Qed.

Lemma completion_place (g' : grid) :
  1 ≤ v ≤ 9 → legal g p v →
  completion (idx p + 1) g1 g' → completion (idx p) g g'.
Proof.
  intros Hdigit Hlegal (Hwf & Hsame & Hset).
  assert (cell g' p = v) as Hp' by (rewrite Hsame; [done..|left; lia]).
  split_and!; [done|..].
  - intros q Hq Hcase.
    assert (q ≠ p) as Hne by (intros ->; destruct Hcase; [lia|done]).
    rewrite <- (Hother q) by done. apply Hsame; [done|].
    destruct Hcase; [left; lia|right]. by rewrite Hother.
  - intros q Hq Hk Hz. destruct (decide (q = p)) as [->|Hne].
    + split; [by rewrite Hp'|]. rewrite Hp'. intros r Hr Hpeer Hrne.
      destruct (decide (cell g1 r = 0)) as [Hrz|Hrnz].
      * destruct (decide (idx r < idx p + 1)) as [Hlt|Hge].
        { rewrite Hsame, Hother by auto. by apply Hlegal. }
        destruct (Hset r Hr) as [_ Hd]; [lia|done|].
        rewrite <- Hp'. intros Heq.
        apply (Hd p Hp); [by apply peer_sym|done..].
      * rewrite Hsame, Hother by auto. by apply Hlegal.
    + apply Hset; [done| |by rewrite Hother].
      assert (idx q ≠ idx p) by (intros ?; by apply Hne, idx_inj). lia.
Qed.

Lemma completion_unplace (g' : grid) :
  cell g' p = v →
  completion (idx p) g g' → completion (idx p + 1) g1 g'.
Proof.
  intros Hp' (Hwf & Hsame & Hset). split_and!; [done|..].
  - intros q Hq Hcase. destruct (decide (q = p)) as [->|Hne]; [congruence|].
    rewrite Hother by done. apply Hsame; [done|].
    destruct Hcase as [Hlt|Hnz]; [left; by apply idx_lt_succ|right].
    by rewrite <- Hother.
  - intros q Hq Hk Hz.
    assert (q ≠ p) as Hne by (intros ->; lia).
    apply Hset; [done|lia|]. by rewrite <- Hother.
Qed.

Lemma completion_legal (g' : grid) :
  cell g' p = v → completion (idx p) g g' → 1 ≤ v ≤ 9 ∧ legal g p v.
Proof.
  intros Hp' (Hwf & Hsame & Hset).
  destruct (Hset p Hp) as [Hdigit Hdiff]; [lia|done|].
  rewrite Hp' in Hdigit, Hdiff. split; [done|].
  intros q Hq Hpeer. destruct (decide (cell g q = 0)) as [Hz|Hnz]; [lia|].
  rewrite <- (Hsame q) by auto. apply Hdiff; [done..|]. by intros ->.
Qed.

Lemma reach_place : wf g1 → 1 ≤ v ≤ 9 → legal g p v → reach g g1.
Proof.
  intros Hwf Hdigit Hlegal. split_and!; [done|..].
  - intros q Hq Hnz. apply Hother; [|done]. by intros ->.
  - intros q Hq Hz Hnz. destruct (decide (q = p)) as [->|Hne].
    + split; rewrite Hv; [done|]. intros r Hr Hpeer Hrne.
      rewrite Hother by done. by apply Hlegal.
    + rewrite Hother in Hnz; done.
Qed.
End place.

(** ** [solve] meets its contract *)

Lemma ev_ok_mono (g g1 : grid) (e : event) : reach g g1 → ev_ok g1 e → ev_ok g e.
Proof.
  destruct e as [i j v h|]; simpl; [|done].
  intros Hr (Hin & Hz & Hh). split_and!; [done| |by eapply reach_trans].
  destruct Hr as (_ & Hkeep & _).
  destruct (decide (cell g (i, j) = 0)) as [|Hnz]; [done|].
  specialize (Hkeep _ Hin Hnz). congruence.
Qed.

Lemma logged_refl (g : grid) (self : Sudoku) : logged g self self.
Proof. by exists []. Qed.

Lemma logged_trans (g : grid) (s1 s2 s3 : Sudoku) :
  logged g s1 s2 → logged g s2 s3 → logged g s1 s3.
Proof.
  intros (e1 & H1 & F1) (e2 & H2 & F2). exists (e2 ++ e1).
  split; [by rewrite H2, H1, app_assoc|]. by apply Forall_app.
Qed.

Lemma logged_mono (g g1 : grid) (s1 s2 : Sudoku) :
  reach g g1 → logged g1 s1 s2 → logged g s1 s2.
Proof.
  intros Hr (evs & Hh & Hf). exists evs. split; [done|].
  eapply Forall_impl; [done|]. intros e. by apply ev_ok_mono.
Qed.

Lemma try_guesses_cons (solve_rec : Z → Z → M bool) (i j guess : Z)
    (rest : list Z) (self : Sudoku) :
  try_guesses solve_rec i j (guess :: rest) self =
  let self1 := record (Check i j guess (_puzzle self)) self in
  match _is_valid_guess self1 i j guess with
  | Ret true =>
      match puzzle_set i j guess self1 with
      | (Ret _, self2) =>
          match advance solve_rec i j self2 with
          | (Ret true, self3) => (Ret true, self3)
          | (Ret false, self3) => try_guesses solve_rec i j rest self3
          | (Raise e, self3) => (Raise e, self3)
          | (OutOfFuel, self3) => (OutOfFuel, self3)
          end
      | (Raise e, self2) => (Raise e, self2)
      | (OutOfFuel, self2) => (OutOfFuel, self2)
      end
  | Ret false => try_guesses solve_rec i j rest self1
  | Raise e => (Raise e, self1)
  | OutOfFuel => (OutOfFuel, self1)
  end.
Proof.
  cbn [try_guesses]. unfold bind at 1. unfold note_check at 1.
  unfold bind at 1. unfold read at 1. cbv zeta.
  destruct (_is_valid_guess _ i j guess) as [[|]| |]; try done.
  unfold bind at 1.
  destruct (puzzle_set i j guess _) as [[[]| |] self2]; try done.
  unfold advance. destruct (_next_location i j) as [[ni nj]|]; [|done].
  unfold bind at 1. by destruct (solve_rec ni nj self2) as [[[|]| |] self3].
Qed.

Lemma solve_S (fuel : nat) (i j : Z) (self : Sudoku) :
  solve (S fuel) i j self =
  match puzzle_get self i j with
  | Ret v =>
      if negb (v =? 0) then advance (solve fuel) i j self
      else
        match try_guesses (solve fuel) i j (range 1 10) self with
        | (Ret true, self1) => (Ret true, self1)
        | (Ret false, self1) =>
            match puzzle_set i j 0 self1 with
            | (Ret _, self2) => (Ret false, self2)
            | (Raise e, self2) => (Raise e, self2)
            | (OutOfFuel, self2) => (OutOfFuel, self2)
            end
        | (Raise e, self1) => (Raise e, self1)
        | (OutOfFuel, self1) => (OutOfFuel, self1)
        end
  | Raise e => (Raise e, self)
  | OutOfFuel => (OutOfFuel, self)
  end.
Proof.
  cbn [solve]. unfold bind at 1. unfold read at 1.
  destruct (puzzle_get self i j) as [v| |]; try done.
  destruct (negb (v =? 0)); [done|].
  unfold bind at 1.
  by destruct (try_guesses _ i j _ self) as [[[|]| |] self1].
Qed.

Section loop.
Context (solve_rec : Z → Z → M bool) (i j : Z) (g0 : grid).
Hypothesis Hp : inr (i, j).
Hypothesis Hrec : meets (idx (i, j) + 1) (advance solve_rec i j).
Hypothesis Hwf0 : wf g0.
Hypothesis Hblank : cell g0 (i, j) = 0.

(** The loop runs on grids that are [g0] except possibly at [(i, j)],
    where a rejected candidate smaller than the remaining ones may
    still stand. *)
Lemma try_guesses_meets (gs : list Z) :
  StronglySorted Z.lt gs → Forall (λ v, 1 ≤ v ≤ 9) gs →
  ∀ self,
    wf (_puzzle self) →
    (∀ q, q ≠ (i, j) → inr q → cell (_puzzle self) q = cell g0 q) →
    Forall (λ v, 0 ≤ cell (_puzzle self) (i, j) < v) gs →
    ∃ b self',
      try_guesses solve_rec i j gs self = (Ret b, self')
      ∧ logged g0 self self'
      ∧ if b
        then completion (idx (i, j)) g0 (_puzzle self')
             ∧ ∀ g'', completion (idx (i, j)) g0 g'' →
                      cell g'' (i, j) ∈ gs → lex_le (_puzzle self') g''
        else (wf (_puzzle self')
              ∧ ∀ q, q ≠ (i, j) → inr q → cell (_puzzle self') q = cell g0 q)
             ∧ ∀ g'', completion (idx (i, j)) g0 g'' → cell g'' (i, j) ∉ gs.
Proof.
  induction gs as [|v rest IH]; intros Hsorted Hdigits self Hwf Hsame Hlow.
  { exists false, self. split; [done|]. split; [apply logged_refl|].
    split; [done|]. intros g'' _. apply not_elem_of_nil. }
  apply StronglySorted_inv in Hsorted as [Hsorted Hlt].
  apply Forall_cons in Hdigits as [Hv Hdigits].
  apply Forall_cons in Hlow as [Hc Hlow].
  rewrite try_guesses_cons. cbv zeta.
  set (self1 := record (Check i j v (_puzzle self)) self).
  assert (logged g0 self self1) as Hlog1.
  { exists [Check i j v (_puzzle self)]. split; [done|]. by apply Forall_singleton. }
  destruct (is_valid_guess_legal self1 i j v) as (ok & -> & Hok); [done..|].
  assert (legal (_puzzle self) (i, j) v ↔ legal g0 (i, j) v) as Hleg.
  { split; intros Hl q Hq Hpeer;
      (destruct (decide (q = (i, j))) as [->|Hne]; [lia|]).
    - rewrite <- Hsame by done. by apply Hl.
    - rewrite Hsame by done. by apply Hl. }
  assert (∀ g'', completion (idx (i, j)) g0 g'' → cell g'' (i, j) = v →
                 legal g0 (i, j) v) as Hfits.
  { intros g'' Hc'' Heq. by eapply completion_legal. }
  destruct ok.
  - assert (legal g0 (i, j) v) as Hlegal by by apply Hleg, Hok.
    destruct (puzzle_set_wf self1 i j v) as (g1 & -> & Hwf1 & Hv1 & Hother1);
      [done..|].
    set (self2 := mkSudoku g1 _).
    assert (∀ q, q ≠ (i, j) → inr q → cell g1 q = cell g0 q) as Hsame1.
    { intros q Hne Hq. rewrite Hother1 by done. by apply Hsame. }
    assert (reach g0 g1) as Hreach by by eapply reach_place.
    assert (logged g0 self1 self2) as Hlog2.
    { exists [Write i j v g1]. split; [done|]. by apply Forall_singleton. }
    destruct (Hrec self2 Hwf1) as (b & self3 & -> & Hlog3 & Hb).
    simpl in Hlog3, Hb.
    assert (logged g0 self self3) as Hlog.
    { eapply logged_trans; [|by eapply logged_mono].
      by eapply logged_trans. }
    destruct b.
    + destruct Hb as [Hcomp Hleast]. exists true, self3.
      split; [done|]. split; [done|]. split.
      { by eapply completion_place. }
      intros g'' Hcomp'' [Heq|Hin]%elem_of_cons.
      { apply Hleast. by eapply completion_unplace. }
      right. exists (i, j). split; [done|].
      destruct Hcomp as (_ & Hs3 & _). destruct Hcomp'' as (_ & Hs'' & _).
      split.
      * intros r Hr Hr_lt.
        assert (r ≠ (i, j)) as Hne by (intros ->; lia).
        rewrite Hs3, Hs'', Hsame1 by (done || left; lia). done.
      * rewrite Hs3, Hv1 by (done || left; lia).
        by eapply (proj1 (Forall_forall _ _) Hlt).
    + destruct Hb as [Heq3 Hnone].
      destruct (IH Hsorted Hdigits self3) as (b' & self4 & Htry & Hlog4 & Hb').
      { by rewrite Heq3. }
      { by rewrite Heq3. }
      { rewrite Heq3, Hv1. eapply Forall_impl; [exact Hlt|].
        intros w Hw. simpl in *. lia. }
      exists b', self4. split; [done|].
      split; [by eapply logged_trans|].
      assert (∀ g'', completion (idx (i, j)) g0 g'' → cell g'' (i, j) ≠ v) as Hnot.
      { intros g'' Hc'' Heq. apply (Hnone g''). by eapply completion_unplace. }
      destruct b'.
      * destruct Hb' as [Hc4 Hl4]. split; [done|].
        intros g'' Hcomp'' [Heq|Hin]%elem_of_cons; [|by apply Hl4].
        by destruct (Hnot g'').
      * destruct Hb' as [Hst Hno]. split; [done|].
        intros g'' Hcomp'' [Heq|Hin]%elem_of_cons; [|by apply (Hno g'')].
        by destruct (Hnot g'').
  - destruct (IH Hsorted Hdigits self1) as (b' & self4 & Htry & Hlog4 & Hb');
      [done..|].
    exists b', self4. split; [done|].
    split; [by eapply logged_trans|].
    assert (∀ g'', completion (idx (i, j)) g0 g'' → cell g'' (i, j) ≠ v) as Hnot.
    { intros g'' Hc'' Heq.
      assert (false = true) as Habs; [|done].
      apply Hok, Hleg. by eapply Hfits. }
    destruct b'.
    + destruct Hb' as [Hc4 Hl4]. split; [done|].
      intros g'' Hcomp'' [Heq|Hin]%elem_of_cons; [|by apply Hl4].
      by destruct (Hnot g'').
    + destruct Hb' as [Hst Hno]. split; [done|].
      intros g'' Hcomp'' [Heq|Hin]%elem_of_cons; [|by apply (Hno g'')].
      by destruct (Hnot g'').
Qed.
End loop.

Lemma candidates_sorted : StronglySorted Z.lt (range 1 10).
Proof. vm_compute. repeat constructor. Qed.

Lemma advance_meets (n : nat) (i j : Z) :
  inr (i, j) →
  (∀ i' j', inr (i', j') → 81 - idx (i', j') ≤ Z.of_nat n →
            meets (idx (i', j')) (solve n i' j')) →
  80 - idx (i, j) ≤ Z.of_nat n →
  meets (idx (i, j) + 1) (advance (solve n) i j).
Proof.
  intros Hp IH Hfuel. unfold advance.
  destruct (_next_location i j) as [[ni nj]|] eqn:Hnext.
  - destruct (next_location_Some i j ni nj Hp Hnext) as [Hin Hidx].
    rewrite <- Hidx. apply IH; [done|lia].
  - rewrite (next_location_None i j Hp Hnext). intros self Hwf.
    exists true, self. split; [done|]. split; [apply logged_refl|].
    split; [by apply completion_end|].
    intros g'' ->%completion_end; [by left|done].
Qed.

(** With one unit of fuel per remaining cell, [solve] returns, and its
    outcome is the one [post] describes. *)
Lemma solve_meets (n : nat) (i j : Z) :
  inr (i, j) → 81 - idx (i, j) ≤ Z.of_nat n → meets (idx (i, j)) (solve n i j).
Proof.
  revert i j. induction n as [|n IH]; intros i j Hp Hfuel.
  { destruct Hp. unfold idx in *. simpl in *. lia. }
  assert (meets (idx (i, j) + 1) (advance (solve n) i j)) as Hadv
    by (apply advance_meets; [done..|lia]).
  intros self Hwf. rewrite solve_S, puzzle_get_wf by done.
  destruct (Z.eqb_spec (cell (_puzzle self) (i, j)) 0) as [Hz|Hnz]; cbn [negb].
  - destruct (try_guesses_meets (solve n) i j (_puzzle self) Hp Hadv Hz
                (range 1 10) candidates_sorted) with self
      as (b & self1 & -> & Hlog & Hb); [|done|done|..].
    { apply Forall_forall. intros v Hv%elem_of_range. lia. }
    { apply Forall_forall. intros v Hv%elem_of_range. lia. }
    assert (∀ g'', completion (idx (i, j)) (_puzzle self) g'' →
                   cell g'' (i, j) ∈ range 1 10) as Hdigit.
    { intros g'' (_ & _ & Hset). apply elem_of_range.
      destruct (Hset (i, j)) as [? _]; [done|lia|done|lia]. }
    destruct b.
    + exists true, self1. split; [done|]. split; [done|].
      destruct Hb as [Hcomp Hleast]. split; [done|].
      intros g'' Hc. apply Hleast; [done|]. by apply Hdigit.
    + destruct Hb as [[Hwf1 Hsame1] Hnone].
      destruct (puzzle_set_wf self1 i j 0) as (g2 & -> & Hwf2 & Hv2 & Hother2);
        [done..|].
      assert (g2 = _puzzle self) as ->.
      { apply grid_ext; [done..|]. intros q Hq.
        destruct (decide (q = (i, j))) as [->|Hne]; [congruence|].
        rewrite Hother2 by done. by apply Hsame1. }
      eexists false, _. split; [done|]. split; simpl.
      * eapply logged_trans; [done|].
        exists [Write i j 0 (_puzzle self)]. split; [done|].
        apply Forall_singleton. split_and!; [done..|]. by apply reach_refl.
      * split; [done|]. intros g'' Hc. apply (Hnone g'' Hc). by apply Hdigit.
  - destruct (Hadv self Hwf) as (b & self' & -> & Hlog & Hb).
    exists b, self'. split; [done|]. split; [done|].
    pose proof (completion_skip (i, j) (_puzzle self)) as Hskip.
    destruct b.
    + destruct Hb as [Hcomp Hleast]. split; [by apply Hskip|].
      intros g'' Hc. apply Hleast. by apply Hskip.
    + destruct Hb as [Heq Hnone]. split; [done|].
      intros g'' Hc. apply (Hnone g''). by apply Hskip.
Qed.

(** ** Houses and the no-repeat constraint *)

Lemma elem_of_cells_of (h : house) (q : pos) :
  q ∈ cells_of h ↔
  match h with
  | Row i => q.1 = i ∧ 0 ≤ q.2 < 9
  | Col j => q.2 = j ∧ 0 ≤ q.1 < 9
  | Box bi bj => 3 * bi ≤ q.1 < 3 * bi + 3 ∧ 3 * bj ≤ q.2 < 3 * bj + 3
  end.
Proof.
  destruct q as [a b]. destruct h as [i|j|bi bj]; unfold cells_of.
  - rewrite list_elem_of_fmap. setoid_rewrite elem_of_range. simpl. split.
    + by intros (c & [= -> ->] & Hc).
    + intros [-> Hb]. by exists b.
  - rewrite list_elem_of_fmap. setoid_rewrite elem_of_range. simpl. split.
    + by intros (r & [= -> ->] & Hr).
    + intros [-> Ha]. by exists a.
  - rewrite list_elem_of_bind. setoid_rewrite elem_of_range.
    setoid_rewrite list_elem_of_fmap. setoid_rewrite elem_of_range.
    simpl. split.
    + by intros (r & (c & [= -> ->] & Hc) & Hr).
    + intros [Ha Hb]. exists a. split; [by exists b|done].
Qed.

Lemma third (b r : Z) : 3 * b ≤ r < 3 * b + 3 → r / 3 = b.
Proof. intros Hr. symmetry. apply (Z.div_unique r 3 b (r - 3 * b)); lia. Qed.

Lemma cells_of_inr (h : house) (q : pos) : house_ok h → q ∈ cells_of h → inr q.
Proof.
  intros Hok Hq%elem_of_cells_of. destruct q as [a b], h; simpl in *;
    split; simpl; lia.
Qed.

Lemma cells_of_peer (h : house) (q r : pos) :
  q ∈ cells_of h → r ∈ cells_of h → peer q r.
Proof.
  intros Hq%elem_of_cells_of Hr%elem_of_cells_of. unfold peer.
  destruct h as [i|j|bi bj].
  - left. destruct Hq, Hr. congruence.
  - right. left. destruct Hq, Hr. congruence.
  - right. right. destruct Hq as [Hq1 Hq2], Hr as [Hr1 Hr2].
    by rewrite (third bi q.1), (third bi r.1), (third bj q.2), (third bj r.2).
Qed.

Lemma peer_house (q r : pos) :
  inr q → inr r → peer q r →
  ∃ h, house_ok h ∧ q ∈ cells_of h ∧ r ∈ cells_of h.
Proof.
  intros [Hq1 Hq2] [Hr1 Hr2] [Heq|[Heq|[Hb1 Hb2]]].
  - exists (Row q.1). rewrite !elem_of_cells_of. simpl. auto.
  - exists (Col q.2). rewrite !elem_of_cells_of. simpl. auto.
  - exists (Box (q.1 / 3) (q.2 / 3)). rewrite !elem_of_cells_of. simpl.
    pose proof (Z.div_mod q.1 3). pose proof (Z.mod_pos_bound q.1 3).
    pose proof (Z.div_mod q.2 3). pose proof (Z.mod_pos_bound q.2 3).
    pose proof (Z.div_mod r.1 3). pose proof (Z.mod_pos_bound r.1 3).
    pose proof (Z.div_mod r.2 3). pose proof (Z.mod_pos_bound r.2 3).
    rewrite Hb1, Hb2 in *. lia.
Qed.

Lemma third_cases (b : Z) : 0 ≤ b < 3 → b = 0 ∨ b = 1 ∨ b = 2.
Proof. lia. Qed.

Lemma cells_of_shape (h : house) :
  house_ok h → NoDup (cells_of h) ∧ length (cells_of h) = 9%nat.
Proof.
  destruct h as [i|j|bi bj]; simpl.
  - intros Hi.
    destruct (small_cases i Hi) as [->|[->|[->|[->|[->|[->|[->|[->| ->]]]]]]]];
      (split; [apply (bool_decide_unpack _); vm_compute; exact I|reflexivity]).
  - intros Hj.
    destruct (small_cases j Hj) as [->|[->|[->|[->|[->|[->|[->|[->| ->]]]]]]]];
      (split; [apply (bool_decide_unpack _); vm_compute; exact I|reflexivity]).
  - intros [Hi Hj].
    destruct (third_cases bi Hi) as [->|[->| ->]];
    destruct (third_cases bj Hj) as [->|[->| ->]];
      (split; [apply (bool_decide_unpack _); vm_compute; exact I|reflexivity]).
Qed.

Lemma NoDup_nonzero_fmap {A} (f : A → Z) (l : list A) :
  NoDup l →
  (∀ x y, x ∈ l → y ∈ l → x ≠ y → f x ≠ 0 → f x ≠ f y) →
  NoDup (filter (λ v, v ≠ 0) (f <$> l)).
Proof.
  induction l as [|x l IH]; intros Hnd Hinj; [constructor|].
  apply NoDup_cons in Hnd as [Hx Hnd].
  assert (NoDup (filter (λ v, v ≠ 0) (f <$> l))) as Htail.
  { apply IH; [done|]. intros y z Hy Hz. apply Hinj; by right. }
  rewrite fmap_cons, filter_cons. destruct (decide (f x ≠ 0)) as [Hnz|]; [|done].
  apply NoDup_cons. split; [|done].
  intros [_ (y & Heq & Hy)%list_elem_of_fmap]%list_elem_of_filter.
  apply (Hinj x y); [left|by right|by intros ->|done..].
Qed.

Lemma NoDup_nonzero_fmap_inv {A} (f : A → Z) (l : list A) (x y : A) :
  NoDup (filter (λ v, v ≠ 0) (f <$> l)) →
  x ∈ l → y ∈ l → x ≠ y → f x ≠ 0 → f x ≠ f y.
Proof.
  induction l as [|a l IH]; intros Hnd Hx Hy Hne Hnz Heq.
  { by apply elem_of_nil in Hx. }
  rewrite fmap_cons, filter_cons in Hnd.
  assert (∀ z, z ∈ l → f z ≠ 0 → f z ∈ filter (λ v, v ≠ 0) (f <$> l)) as Hmem.
  { intros z Hz Hfz. apply list_elem_of_filter. split; [done|].
    by apply list_elem_of_fmap_2. }
  apply elem_of_cons in Hx as [->|Hx]; apply elem_of_cons in Hy as [->|Hy].
  - done.
  - destruct (decide (f a ≠ 0)); [|done].
    apply NoDup_cons in Hnd as [Hnot _]. apply Hnot.
    rewrite Heq. apply Hmem; [done|congruence].
  - destruct (decide (f a ≠ 0)) as [|Hz]; [|by rewrite <- Heq in Hz].
    apply NoDup_cons in Hnd as [Hnot _]. apply Hnot.
    rewrite <- Heq. by apply Hmem.
  - apply IH; try done. destruct (decide (f a ≠ 0)); [|done].
    by apply NoDup_cons in Hnd as [_ ?].
Qed.

Lemma no_repeats_distinct (g : grid) : no_repeats g ↔ distinct g.
Proof.
  split.
  - intros Hno q r Hq Hr Hpeer Hne Hnz.
    destruct (peer_house q r Hq Hr Hpeer) as (h & Hok & Hqh & Hrh).
    by apply (NoDup_nonzero_fmap_inv (cell g) (cells_of h)); [apply Hno|..].
  - intros Hd h Hok. apply NoDup_nonzero_fmap; [by apply cells_of_shape|].
    intros q r Hq Hr Hne Hnz.
    apply Hd; [by eapply cells_of_inr..|by eapply cells_of_peer|done|done].
Qed.

Lemma reach_distinct (g g' : grid) : reach g g' → distinct g → distinct g'.
Proof.
  intros (_ & Hkeep & Hnew) Hd q r Hq Hr Hpeer Hne Hnz.
  destruct (decide (cell g q = 0)) as [Hqz|Hqnz].
  { destruct (Hnew q Hq Hqz Hnz) as [_ Hdiff]. intros Heq.
    apply (Hdiff r); [done..|by intros ->|done]. }
  destruct (decide (cell g r = 0)) as [Hrz|Hrnz].
  - destruct (decide (cell g' r = 0)) as [Hrz'|Hrnz']; [congruence|].
    destruct (Hnew r Hr Hrz Hrnz') as [_ Hdiff].
    apply (Hdiff q); [done|by apply peer_sym|done].
  - rewrite (Hkeep q), (Hkeep r) by done. by apply Hd.
Qed.

Lemma distinct_solved (g : grid) :
  distinct g → (∀ q, inr q → 1 ≤ cell g q ≤ 9) → solved g.
Proof.
  intros Hd Hfull h Hok. destruct (cells_of_shape h Hok) as [Hnd Hlen].
  apply submseteq_length_Permutation.
  - apply NoDup_submseteq.
    + apply NoDup_fmap_2_strong; [|done]. intros q r Hq Hr Heq.
      destruct (decide (q = r)) as [|Hne]; [done|]. exfalso.
      assert (inr q) as Hqin by by eapply cells_of_inr.
      apply (Hd q r); [done|by eapply cells_of_inr|by eapply cells_of_peer|done| |done].
      specialize (Hfull q Hqin). lia.
    + intros v (q & -> & Hq)%list_elem_of_fmap. apply elem_of_range.
      assert (inr q) as Hqin by by eapply cells_of_inr.
      specialize (Hfull q Hqin). lia.
  - unfold values. rewrite length_fmap, Hlen. done.
Qed.

Lemma no_repeats_check (g : grid) : no_repeatsb g = true → no_repeats g.
Proof.
  intros Hall h Hok. unfold no_repeatsb in Hall.
  rewrite forallb_forall in Hall.
  eapply bool_decide_eq_true_1, (Hall h).
  apply list_elem_of_In. unfold all_houses. rewrite !elem_of_app.
  destruct h as [i|j|bi bj]; simpl in Hok.
  - left. apply list_elem_of_fmap_2. by apply elem_of_range.
  - right. left. apply list_elem_of_fmap_2. by apply elem_of_range.
  - right. right. apply list_elem_of_bind. exists bi.
    split; [|apply elem_of_range; lia].
    apply list_elem_of_fmap_2. apply elem_of_range. lia.
Qed.

(** ** The concrete puzzles as input strings *)

Lemma four_blanks_literal `{db : UnicodeDb} :
  of_literal "004678912672195348198342567859761423426853791713924856961537284287419635005286179"
  = Ret four_blanks.
Proof. reflexivity. Qed.

Lemma double_five_literal `{db : UnicodeDb} :
  of_literal "554678912672195348198342567859761423426853791713924856961537284287419635345286170"
  = Ret double_five.
Proof. reflexivity. Qed.

Lemma filled_double_five_literal `{db : UnicodeDb} :
  of_literal "554678912672195348198342567859761423426853791713924856961537284287419635345286179"
  = Ret filled_double_five.
Proof. reflexivity. Qed.

Lemma dead_end_literal `{db : UnicodeDb} :
  of_literal "534678912672195348198342567859761423426853791713924856961537284287419635945286170"
  = Ret dead_end.
Proof. reflexivity. Qed.

Lemma wf_check (g : grid) :
  bool_decide (length g = 9%nat)
  && forallb (λ row : list Z, bool_decide (length row = 9%nat)) g = true → wf g.
Proof.
  intros [Hlen Hrows]%andb_true_iff. split; [by apply bool_decide_eq_true_1 in Hlen|].
  apply Forall_forall. intros row Hrow%list_elem_of_In.
  rewrite forallb_forall in Hrows. by eapply bool_decide_eq_true_1, (Hrows row).
Qed.

Lemma digits_check (g : grid) :
  wf g → forallb (forallb (λ v, (0 <=? v) && (v <=? 9))) g = true → digits g.
Proof.
  intros Hwf Hall q Hq.
  destruct (wf_cell g q Hwf Hq) as (row & Hrow & _ & Hv).
  rewrite forallb_forall in Hall.
  apply list_elem_of_lookup_2, list_elem_of_In, Hall in Hrow.
  rewrite forallb_forall in Hrow.
  apply list_elem_of_lookup_2, list_elem_of_In, Hrow in Hv. lia.
Qed.

(** ** The top-level call [solve(0, 0)] *)

Lemma solve_contract (fuel : nat) (self : Sudoku) :
  (81 ≤ fuel)%nat → wf (_puzzle self) →
  ∃ b self', solve fuel 0 0 self = (Ret b, self') ∧ post 0 self b self'.
Proof.
  intros Hfuel Hwf.
  apply (solve_meets fuel 0 0); [split; simpl; lia|unfold idx; simpl; lia|done].
Qed.

Lemma solve_outcome (fuel : nat) (self : Sudoku) (r : result bool) (self' : Sudoku) :
  (81 ≤ fuel)%nat → wf (_puzzle self) → solve fuel 0 0 self = (r, self') →
  ∃ b, r = Ret b ∧ post 0 self b self'.
Proof.
  intros Hfuel Hwf Hrun.
  destruct (solve_contract fuel self Hfuel Hwf) as (b & s' & Heq & Hpost).
  rewrite Heq in Hrun. injection Hrun as <- <-. by exists b.
Qed.

Lemma logged_events (g : grid) (self self' : Sudoku) (evs : list event) :
  logged g self self' → history self' = evs ++ history self → Forall (ev_ok g) evs.
Proof.
  intros (evs' & Heq & Hall) Hevs. rewrite Heq in Hevs.
  by apply app_inv_tail in Hevs as <-.
Qed.

Lemma post_reach (self : Sudoku) (b : bool) (self' : Sudoku) :
  wf (_puzzle self) → post 0 self b self' → reach (_puzzle self) (_puzzle self').
Proof.
  intros Hwf [_ Hb]. destruct b.
  - destruct Hb as [Hc _]. by eapply completion_reach.
  - destruct Hb as [-> _]. by apply reach_refl.
Qed.

Lemma lex_lt_asym (g g' : grid) : lex_lt g g' → lex_lt g' g → False.
Proof.
  intros (q & Hq & Hpre & Hlt) (q' & Hq' & Hpre' & Hlt').
  destruct (Z.lt_trichotomy (idx q) (idx q')) as [Hc|[Hc|Hc]].
  - specialize (Hpre' q Hq Hc). lia.
  - apply idx_inj in Hc as ->; [lia|done..].
  - specialize (Hpre q' Hq' Hc). lia.
Qed.

Lemma lex_le_antisym (g g' : grid) : lex_le g g' → lex_le g' g → g = g'.
Proof.
  intros [->|Hlt] [Heq|Hlt']; try done. destruct (lex_lt_asym g g' Hlt Hlt').
Qed.

(** ** Claims about the solver *)

(** C1 (as amended).  For a 9x9 grid of digits whose non-zero entries
    repeat in no row, column or box: when [solve(0, 0)] returns true,
    every row, column and box of the resulting grid is a permutation of
    1, ..., 9. *)
Theorem solve_true_solved (fuel : nat) (self self' : Sudoku) :
  (81 ≤ fuel)%nat → wf (_puzzle self) → digits (_puzzle self) →
  no_repeats (_puzzle self) →
  solve fuel 0 0 self = (Ret true, self') →
  solved (_puzzle self').
Proof.
  intros Hfuel Hwf Hdig Hno Hrun.
  destruct (solve_outcome fuel self _ self' Hfuel Hwf Hrun) as (b & [= <-] & Hpost).
  pose proof (post_reach self true self' Hwf Hpost) as Hreach.
  destruct Hpost as [_ [(_ & Hsame & Hset) _]].
  apply distinct_solved.
  - eapply reach_distinct; [done|]. by apply no_repeats_distinct.
  - intros q Hq. destruct (decide (cell (_puzzle self) q = 0)) as [Hz|Hnz].
    + destruct (Hset q) as [? _]; [done| |done..].
      destruct Hq. unfold idx. lia.
    + rewrite Hsame by auto. specialize (Hdig q Hq). lia.
Qed.

(** C2.  On a 9x9 grid [solve(0, 0)] always returns a boolean (it does
    not raise, and 81 nested calls suffice); when that boolean is false
    the grid is the input grid again. *)
Theorem solve_false_restores (fuel : nat) (self : Sudoku) :
  (81 ≤ fuel)%nat → wf (_puzzle self) →
  ∃ (b : bool) self',
    solve fuel 0 0 self = (Ret b, self')
    ∧ (b = false → _puzzle self' = _puzzle self).
Proof.
  intros Hfuel Hwf.
  destruct (solve_contract fuel self Hfuel Hwf) as (b & self' & Hrun & _ & Hb).
  exists b, self'. split; [done|]. intros ->. by destruct Hb.
Qed.

(** C3 (as amended).  When the non-zero entries of the initial grid
    repeat in no row, column or box, the same holds of the grid after
    every store [self._puzzle[i][j] = ...] that [solve(0, 0)] performs. *)
Theorem solve_states_no_repeats (fuel : nat) (self : Sudoku) (r : result bool)
    (self' : Sudoku) (evs : list event) :
  (81 ≤ fuel)%nat → wf (_puzzle self) → no_repeats (_puzzle self) →
  solve fuel 0 0 self = (r, self') →
  history self' = evs ++ history self →
  ∀ i j v h, Write i j v h ∈ evs → no_repeats h.
Proof.
  intros Hfuel Hwf Hno Hrun Hevs i j v h Hin.
  destruct (solve_outcome fuel self r self' Hfuel Hwf Hrun) as (b & _ & Hlog & _).
  pose proof (logged_events _ _ _ _ Hlog Hevs) as Hall.
  rewrite Forall_forall in Hall. destruct (Hall _ Hin) as (_ & _ & Hreach).
  apply no_repeats_distinct. eapply reach_distinct; [done|].
  by apply no_repeats_distinct.
Qed.

(** C4.  Whatever [solve(0, 0)] returns, every cell that was non-zero on
    entry holds its value on return; moreover no store targets such a
    cell, and every grid a store produces still holds those values. *)
Theorem solve_keeps_filled (fuel : nat) (self : Sudoku) (r : result bool)
    (self' : Sudoku) (evs : list event) :
  (81 ≤ fuel)%nat → wf (_puzzle self) →
  solve fuel 0 0 self = (r, self') →
  history self' = evs ++ history self →
  (∀ q, inr q → cell (_puzzle self) q ≠ 0 →
        cell (_puzzle self') q = cell (_puzzle self) q)
  ∧ ∀ i j v h, Write i j v h ∈ evs →
      cell (_puzzle self) (i, j) = 0 ∧ keeps (_puzzle self) h.
Proof.
  intros Hfuel Hwf Hrun Hevs.
  destruct (solve_outcome fuel self r self' Hfuel Hwf Hrun) as (b & _ & Hpost).
  split.
  - by destruct (post_reach self b self' Hwf Hpost) as (_ & Hkeep & _).
  - intros i j v h Hin. destruct Hpost as [Hlog _].
    pose proof (logged_events _ _ _ _ Hlog Hevs) as Hall.
    rewrite Forall_forall in Hall.
    by destruct (Hall _ Hin) as (_ & Hz & _ & Hkeep & _).
Qed.

(** C5.  On a 9x9 grid and for a position inside it,
    [_is_valid_guess(i, j, value)] returns true exactly when no cell of
    row [i], no cell of column [j] and no cell of the box with rows
    [(i//3)*3 .. (i//3)*3+2] and columns [(j//3)*3 .. (j//3)*3+2] holds
    [value] in the grid as it stands, and returns false otherwise. *)
Theorem is_valid_guess_iff (self : Sudoku) (i j value : Z) :
  wf (_puzzle self) → 0 ≤ i < 9 → 0 ≤ j < 9 →
  ∃ b : bool,
    _is_valid_guess self i j value = Ret b
    ∧ (b = true ↔
       (∀ c, 0 ≤ c < 9 → cell (_puzzle self) (i, c) ≠ value)
       ∧ (∀ r, 0 ≤ r < 9 → cell (_puzzle self) (r, j) ≠ value)
       ∧ (∀ r c, (i / 3) * 3 ≤ r ≤ (i / 3) * 3 + 2 →
                 (j / 3) * 3 ≤ c ≤ (j / 3) * 3 + 2 →
                 cell (_puzzle self) (r, c) ≠ value)).
Proof. intros Hwf Hi Hj. by apply is_valid_guess_clear. Qed.

(** Whenever [_is_valid_guess(i, j, guess)] is called from the loop,
    cell [(i, j)] holds zero or a smaller candidate. *)
Lemma check_sees_smaller (fuel : nat) (self : Sudoku) (r : result bool)
    (self' : Sudoku) (evs : list event) :
  (81 ≤ fuel)%nat → wf (_puzzle self) →
  solve fuel 0 0 self = (r, self') →
  history self' = evs ++ history self →
  ∀ i j guess h, Check i j guess h ∈ evs → 0 ≤ cell h (i, j) < guess.
Proof.
  intros Hfuel Hwf Hrun Hevs i j guess h Hin.
  destruct (solve_outcome fuel self r self' Hfuel Hwf Hrun) as (b & _ & Hlog & _).
  pose proof (logged_events _ _ _ _ Hlog Hevs) as Hall.
  rewrite Forall_forall in Hall. apply (Hall _ Hin).
Qed.

Section loop_events.
Context (solve_rec : Z → Z → M bool) (i j : Z).
Hypothesis Hp : inr (i, j).
Hypothesis Hrec : meets (idx (i, j) + 1) (advance solve_rec i j).

(** What the loop records: it starts with the check of its first
    candidate on the grid it was entered with, and no store of zero to
    [(i, j)] occurs while it runs. *)
Lemma try_guesses_events (gs : list Z) :
  Forall (λ v, 1 ≤ v ≤ 9) gs →
  ∀ self, wf (_puzzle self) →
    ∃ r s1 evs,
      try_guesses solve_rec i j gs self = (r, s1)
      ∧ history s1 = evs ++ history self
      ∧ (∀ v h, Write i j v h ∈ evs → v ≠ 0)
      ∧ ∀ guess rest, gs = guess :: rest →
          ∃ later, evs = later ++ [Check i j guess (_puzzle self)].
Proof.
  induction gs as [|v rest IH]; intros Hdigits self Hwf.
  { exists (Ret false), self, []. split_and!; [done..| |done].
    intros v h Hin. by apply elem_of_nil in Hin. }
  apply Forall_cons in Hdigits as [Hv Hdigits].
  rewrite try_guesses_cons. cbv zeta.
  set (self1 := record (Check i j v (_puzzle self)) self).
  destruct (is_valid_guess_legal self1 i j v) as (ok & -> & _); [done..|].
  destruct ok.
  - destruct (puzzle_set_wf self1 i j v) as (g1 & -> & Hwf1 & Hv1 & _); [done..|].
    set (self2 := mkSudoku g1 _).
    destruct (Hrec self2 Hwf1) as (b & s3 & -> & (evs3 & Hh3 & Hall3) & Hb).
    simpl in Hh3, Hall3, Hb.
    assert (∀ w h, Write i j w h ∈ evs3 → False) as Hbelow.
    { intros w h Hin. rewrite Forall_forall in Hall3.
      destruct (Hall3 _ Hin) as (_ & Hz & _). lia. }
    destruct b.
    + exists (Ret true), s3, (evs3 ++ [Write i j v g1; Check i j v (_puzzle self)]).
      split_and!; [done|by rewrite Hh3, <- app_assoc| |].
      * intros w h [Hin|Hin]%elem_of_app; [by destruct (Hbelow w h)|].
        apply elem_of_cons in Hin as [[= -> ->]|Hin]; [lia|].
        by apply list_elem_of_singleton in Hin.
      * intros guess rest' [= <- <-].
        exists (evs3 ++ [Write i j v g1]). by rewrite <- app_assoc.
    + destruct Hb as [Heq3 _].
      destruct (IH Hdigits s3) as (r & s4 & evs4 & Hrun & Hh4 & Hno4 & _);
        [by rewrite Heq3|].
      exists r, s4, (evs4 ++ evs3 ++ [Write i j v g1; Check i j v (_puzzle self)]).
      split_and!; [done|by rewrite Hh4, Hh3, <- !app_assoc| |].
      * intros w h [Hin|[Hin|Hin]%elem_of_app]%elem_of_app;
          [by apply (Hno4 w h)|by destruct (Hbelow w h)|].
        apply elem_of_cons in Hin as [[= -> ->]|Hin]; [lia|].
        by apply list_elem_of_singleton in Hin.
      * intros guess rest' [= <- <-].
        exists (evs4 ++ evs3 ++ [Write i j v g1]). by rewrite <- !app_assoc.
  - destruct (IH Hdigits self1) as (r & s4 & evs4 & Hrun & Hh4 & Hno4 & _); [done|].
    exists r, s4, (evs4 ++ [Check i j v (_puzzle self)]).
    split_and!; [done|by rewrite Hh4, <- app_assoc| |].
    + intros w h [Hin|Hin]%elem_of_app; [by apply (Hno4 w h)|].
      by apply list_elem_of_singleton in Hin.
    + intros guess rest' [= <- <-]. by exists evs4.
Qed.
End loop_events.

(** C6 (as amended).  In the candidate loop of [solve] a candidate whose
    recursive call failed is not undone before the next candidate is
    tried.  First part, for any state [self] of the loop at [(i, j)]
    and any candidate [guess] that passes the check and is stored:
    when the recursive call returns false, the grid is exactly the grid
    right after the store, cell [(i, j)] still holds [guess], no store
    of the failed call touched that cell, the loop goes on from that
    very state, and what it does next is the check of the next
    candidate on that grid.  Second part, for a blank cell: while the
    loop runs no zero is stored into [(i, j)]; the one reset is the
    store after the loop, made when the candidates are exhausted, after
    which [solve] returns false with the grid it was called on. *)
Theorem candidate_not_undone (fuel : nat) (i j : Z) (self : Sudoku) :
  wf (_puzzle self) → inr (i, j) → 80 - idx (i, j) ≤ Z.of_nat fuel →
  (∀ guess rest self1 next_i next_j self2,
     Forall (λ v, 1 ≤ v ≤ 9) (guess :: rest) →
     _is_valid_guess (record (Check i j guess (_puzzle self)) self) i j guess
     = Ret true →
     puzzle_set i j guess (record (Check i j guess (_puzzle self)) self)
     = (Ret (), self1) →
     _next_location i j = Some (next_i, next_j) →
     solve fuel next_i next_j self1 = (Ret false, self2) →
     _puzzle self2 = _puzzle self1
     ∧ cell (_puzzle self2) (i, j) = guess
     ∧ (∀ evs, history self2 = evs ++ history self1 →
               ∀ i' j' v h, Write i' j' v h ∈ evs → (i', j') ≠ (i, j))
     ∧ try_guesses (solve fuel) i j (guess :: rest) self
       = try_guesses (solve fuel) i j rest self2
     ∧ ∀ guess' rest', rest = guess' :: rest' →
         ∃ later,
           history (try_guesses (solve fuel) i j rest self2).2
           = later ++ Check i j guess' (_puzzle self2) :: history self2)
  ∧ (cell (_puzzle self) (i, j) = 0 →
     ∃ (b : bool) s1 evs,
       try_guesses (solve fuel) i j (range 1 10) self = (Ret b, s1)
       ∧ history s1 = evs ++ history self
       ∧ (∀ v h, Write i j v h ∈ evs → v ≠ 0)
       ∧ if b
         then solve (S fuel) i j self = (Ret true, s1)
         else ∃ s2, puzzle_set i j 0 s1 = (Ret (), s2)
                    ∧ solve (S fuel) i j self = (Ret false, s2)
                    ∧ _puzzle s2 = _puzzle self).
Proof.
  intros Hwf Hp Hfuel.
  assert (meets (idx (i, j) + 1) (advance (solve fuel) i j)) as Hadv.
  { apply advance_meets; [done| |done].
    intros i' j' Hp' Hfuel'. by apply solve_meets. }
  split.
  - intros guess rest self1 ni nj self2 Hdigits Hok Hset Hnext Hrun.
    apply Forall_cons in Hdigits as [Hguess Hdigits].
    set (self0 := record (Check i j guess (_puzzle self)) self) in *.
    destruct (puzzle_set_wf self0 i j guess) as (g1 & Hset' & Hwf1 & Hv1 & _);
      [done..|].
    assert (self1 = mkSudoku g1 (Write i j guess g1 :: history self0)) as ->
      by congruence.
    clear Hset.
    destruct (Hadv (mkSudoku g1 (Write i j guess g1 :: history self0)) Hwf1)
      as (b & s3 & Hrun' & Hlog & Hb).
    unfold advance in Hrun'. rewrite Hnext, Hrun in Hrun'.
    injection Hrun' as <- <-. destruct Hb as [Heq _]. simpl in Heq, Hlog.
    split_and!.
    + done.
    + by rewrite Heq.
    + intros evs Hevs i' j' v h Hin [= -> ->].
      pose proof (logged_events _ _ _ _ Hlog Hevs) as Hall.
      rewrite Forall_forall in Hall. destruct (Hall _ Hin) as (_ & Hz & _). lia.
    + rewrite try_guesses_cons. cbv zeta. fold self0. rewrite Hok, Hset'.
      unfold advance. by rewrite Hnext, Hrun.
    + intros guess' rest' ->.
      destruct (try_guesses_events (solve fuel) i j Hp Hadv (guess' :: rest')
                  Hdigits self2) as (r & s' & evs & Hloop & Hh & _ & Hfirst).
      { by rewrite Heq. }
      destruct (Hfirst guess' rest' eq_refl) as (later & ->).
      exists later. rewrite Hloop. simpl. by rewrite Hh, <- app_assoc.
  - intros Hz.
    assert (Forall (λ v, 1 ≤ v ≤ 9) (range 1 10)) as Hdigits.
    { apply Forall_forall. intros v Hv%elem_of_range. lia. }
    destruct (try_guesses_events (solve fuel) i j Hp Hadv (range 1 10) Hdigits
                self Hwf) as (r & s1 & evs & Hloop & Hh & Hno & _).
    destruct (try_guesses_meets (solve fuel) i j (_puzzle self) Hp Hadv Hz
                (range 1 10) candidates_sorted Hdigits self)
      as (b & s1' & Hloop' & _ & Hb); [done|done|..].
    { apply Forall_forall. intros v Hv%elem_of_range. lia. }
    rewrite Hloop in Hloop'. injection Hloop' as -> <-.
    exists b, s1, evs. split_and!; [done..|].
    rewrite solve_S, puzzle_get_wf, Hz, Hloop by done. cbn [Z.eqb negb].
    destruct b; [done|]. destruct Hb as [[Hwf1 Hsame1] _].
    destruct (puzzle_set_wf s1 i j 0) as (g2 & Hset & Hwf2 & Hv2 & Hother2);
      [done..|].
    rewrite Hset. eexists. split_and!; [done..|]. simpl.
    apply grid_ext; [done..|]. intros q Hq.
    destruct (decide (q = (i, j))) as [->|Hne]; [congruence|].
    rewrite Hother2 by done. by apply Hsame1.
Qed.

(** C7.  [_next_location] depends on its two arguments only; inside the
    grid it returns [(i, j+1)] when [j < 8], [(i+1, 0)] when [j = 8] and
    [i < 8], and [None] exactly at [(8, 8)]. *)
Theorem next_location_spec (i j : Z) :
  0 ≤ i < 9 → 0 ≤ j < 9 →
  (j < 8 → _next_location i j = Some (i, j + 1))
  ∧ (j = 8 → i < 8 → _next_location i j = Some (i + 1, 0))
  ∧ (_next_location i j = None ↔ i = 8 ∧ j = 8).
Proof.
  intros Hi Hj.
  destruct (small_cases i Hi) as [->|[->|[->|[->|[->|[->|[->|[->| ->]]]]]]]];
  destruct (small_cases j Hj) as [->|[->|[->|[->|[->|[->|[->|[->| ->]]]]]]]];
  (split_and!;
   [ intros ?; first [reflexivity|lia]
   | intros ? ?; first [reflexivity|lia]
   | split;
     [ intros Hnone; first [by vm_compute in Hnone|done]
     | intros [? ?]; first [reflexivity|lia] ] ]).
Qed.

(** For a grid of digits without repeats, the completions from rank 0
    are the solved grids that extend it. *)
Lemma completion_solution (g g' : grid) :
  digits g → no_repeats g →
  completion 0 g g' ↔ wf g' ∧ keeps g g' ∧ solved g'.
Proof.
  intros Hdig Hno. split.
  - intros Hc. pose proof (completion_reach _ _ _ Hc) as Hreach.
    destruct Hc as (Hwf & Hsame & Hset). split_and!; [done|by intros q ? ?; auto|].
    apply distinct_solved.
    + eapply reach_distinct; [done|]. by apply no_repeats_distinct.
    + intros q Hq. destruct (decide (cell g q = 0)) as [Hz|Hnz].
      * destruct (Hset q) as [? _]; [done| |done..]. destruct Hq. unfold idx. lia.
      * rewrite Hsame by auto. specialize (Hdig q Hq). lia.
  - intros (Hwf & Hkeep & Hsolved). split_and!; [done|..].
    + intros q Hq [Hlt|Hnz]; [|by apply Hkeep]. destruct Hq. unfold idx in Hlt. lia.
    + intros q Hq _ Hz.
      assert (∀ r, inr r → 1 ≤ cell g' r ≤ 9) as Hfull.
      { intros r Hr.
        assert (cell g' r ∈ values g' (Row r.1)) as Hin.
        { apply list_elem_of_fmap_2, elem_of_cells_of. by destruct Hr. }
        rewrite (Hsolved (Row r.1)) in Hin by (by destruct Hr).
        apply elem_of_range in Hin. lia. }
      assert (distinct g') as Hd.
      { apply no_repeats_distinct. intros h Hok. apply NoDup_filter.
        rewrite (Hsolved h Hok). apply NoDup_seqZ. }
      split; [by apply Hfull|]. intros r Hr Hpeer Hne Heq.
      apply (Hd q r); [done..|by intros ->| |done].
      specialize (Hfull q Hq). lia.
Qed.

(** C8.  The outcome of [solve(0, 0)] is a function of the input grid
    alone: two runs from equal grids return the same boolean and leave
    equal grids.  The boolean is true exactly when the grid has a
    completion, and the grid left is then the first completion in
    row-major lexicographic order, which is the first one a depth-first
    search over the cells in row-major order with ascending candidates
    reaches. *)
Theorem solve_first_completion (fuel1 fuel2 : nat) (self1 self2 : Sudoku) :
  (81 ≤ fuel1)%nat → (81 ≤ fuel2)%nat →
  wf (_puzzle self1) → _puzzle self2 = _puzzle self1 →
  ∃ (b : bool) s1 s2,
    solve fuel1 0 0 self1 = (Ret b, s1)
    ∧ solve fuel2 0 0 self2 = (Ret b, s2)
    ∧ _puzzle s1 = _puzzle s2
    ∧ if b
      then completion 0 (_puzzle self1) (_puzzle s1)
           ∧ ∀ g'', completion 0 (_puzzle self1) g'' → lex_le (_puzzle s1) g''
      else ∀ g'', ¬ completion 0 (_puzzle self1) g''.
Proof.
  intros Hfuel1 Hfuel2 Hwf Heq.
  destruct (solve_contract fuel1 self1 Hfuel1 Hwf) as (b1 & s1 & Hrun1 & _ & Hb1).
  destruct (solve_contract fuel2 self2 Hfuel2) as (b2 & s2 & Hrun2 & _ & Hb2);
    [by rewrite Heq|].
  rewrite Heq in Hb2.
  destruct b1, b2.
  - destruct Hb1 as [Hc1 Hl1], Hb2 as [Hc2 Hl2]. exists true, s1, s2.
    split_and!; [done|done| |done|done]. apply lex_le_antisym; auto.
  - destruct Hb1 as [Hc1 _], Hb2 as [_ Hnone]. by destruct (Hnone _ Hc1).
  - destruct Hb1 as [_ Hnone], Hb2 as [Hc2 _]. by destruct (Hnone _ Hc2).
  - destruct Hb1 as [Hg1 Hnone], Hb2 as [Hg2 _]. exists false, s1, s2.
    split_and!; [done|done|congruence|done].
Qed.

(** C10.  On a 9x9 grid without blanks [solve(0, 0)] returns true,
    leaves the grid as it is and performs no store, whether or not the
    grid respects the row, column and box constraints. *)
Theorem solve_full_unchanged (fuel : nat) (self : Sudoku) :
  (81 ≤ fuel)%nat → wf (_puzzle self) →
  (∀ q, inr q → cell (_puzzle self) q ≠ 0) →
  ∃ self',
    solve fuel 0 0 self = (Ret true, self')
    ∧ _puzzle self' = _puzzle self
    ∧ ∀ evs, history self' = evs ++ history self →
             ∀ i j v h, Write i j v h ∉ evs.
Proof.
  intros Hfuel Hwf Hfull.
  destruct (solve_contract fuel self Hfuel Hwf) as (b & self' & Hrun & Hlog & Hb).
  assert (completion 0 (_puzzle self) (_puzzle self)) as Hself.
  { split_and!; [done..|]. intros q Hq _ Hz. by destruct (Hfull q Hq). }
  destruct b; [|destruct Hb as [_ Hnone]; by destruct (Hnone _ Hself)].
  exists self'. split; [done|]. destruct Hb as [(Hwf' & Hsame & _) _]. split.
  - apply grid_ext; [done..|]. intros q Hq. apply Hsame; auto.
  - intros evs Hevs i j v h Hin.
    pose proof (logged_events _ _ _ _ Hlog Hevs) as Hall.
    rewrite Forall_forall in Hall. destruct (Hall _ Hin) as (Hq & Hz & _).
    by destruct (Hfull _ Hq).
Qed.

(** ** The claims on concrete puzzles *)

(** [four_blanks] is solved (after one failed descent at (0,0)), and
    the solution has every house a permutation of 1..9. *)
Lemma solve_true_solved_witness :
  wf (_puzzle four_blanks) ∧ digits (_puzzle four_blanks)
  ∧ no_repeats (_puzzle four_blanks)
  ∧ (solve 81 0 0 four_blanks).1 = Ret true
  ∧ solved (_puzzle (solve 81 0 0 four_blanks).2).
Proof.
  assert (wf (_puzzle four_blanks)) as Hwf by (apply wf_check; reflexivity).
  assert (digits (_puzzle four_blanks)) as Hdig
    by (apply digits_check; [exact Hwf|reflexivity]).
  assert (no_repeats (_puzzle four_blanks)) as Hno
    by (apply no_repeats_check; vm_compute; reflexivity).
  split_and!; [exact Hwf|exact Hdig|exact Hno|vm_compute; reflexivity|].
  apply (solve_true_solved 81 four_blanks (solve 81 0 0 four_blanks).2);
    [lia|exact Hwf|exact Hdig|exact Hno|vm_compute; reflexivity].
Defined.

(** C1 as stated fails: on a filled grid with two 5s in row 0
    [solve(0, 0)] returns true, and row 0 is not a permutation of 1..9. *)
Lemma solve_true_not_solved :
  wf (_puzzle filled_double_five)
  ∧ ∃ self', solve 81 0 0 filled_double_five = (Ret true, self')
             ∧ ¬ solved (_puzzle self').
Proof.
  split; [apply wf_check; reflexivity|].
  eexists. split; [vm_compute; reflexivity|]. intros Hsolved.
  assert (NoDup (values (_puzzle filled_double_five) (Row 0))) as Hnd.
  { rewrite (Hsolved (Row 0)) by (simpl; lia). apply NoDup_seqZ. }
  vm_compute in Hnd. apply NoDup_cons in Hnd as [Hnot _]. apply Hnot. left.
Qed.

(** [dead_end] has no completion: [solve(0, 0)] returns false and the
    grid is as before. *)
Lemma solve_false_restores_witness :
  wf (_puzzle dead_end)
  ∧ ∃ (b : bool) self',
      solve 81 0 0 dead_end = (Ret b, self')
      ∧ (b = false → _puzzle self' = _puzzle dead_end).
Proof.
  assert (wf (_puzzle dead_end)) as Hwf by (apply wf_check; reflexivity).
  split; [exact Hwf|].
  apply (solve_false_restores 81 dead_end); [lia|exact Hwf].
Defined.

Example dead_end_fails : (solve 81 0 0 dead_end).1 = Ret false.
Proof. vm_compute. reflexivity. Qed.

(** Outside the 9x9 shape the subscripts do go out of range: the
    two-row grid read from ten digits makes the row scan at (1,0) raise. *)
Example short_grid_raises `{db : UnicodeDb} :
  ∃ self, of_literal "1234567890" = Ret self
          ∧ (solve 81 0 0 self).1 = Raise IndexError.
Proof. eexists. split; [reflexivity|]. vm_compute. reflexivity. Qed.

Lemma first_store_logged :
  Write 0 0 3 after_first_store ∈ history (solve 81 0 0 four_blanks).2.
Proof. apply (list_elem_of_lookup_2 _ 26%nat). vm_compute. reflexivity. Defined.

Lemma solve_states_no_repeats_witness :
  no_repeats (_puzzle four_blanks) ∧ no_repeats after_first_store.
Proof.
  assert (no_repeats (_puzzle four_blanks)) as Hno
    by (apply no_repeats_check; vm_compute; reflexivity).
  split; [exact Hno|].
  apply (solve_states_no_repeats 81 four_blanks (solve 81 0 0 four_blanks).1
           (solve 81 0 0 four_blanks).2 (history (solve 81 0 0 four_blanks).2))
    with (i := 0) (j := 0) (v := 3).
  - lia.
  - apply wf_check; reflexivity.
  - exact Hno.
  - vm_compute; reflexivity.
  - vm_compute; reflexivity.
  - exact first_store_logged.
Defined.

(** C3 as stated fails: started on a grid with two 5s in row 0, the
    store at (8,8) produces a grid that still has them. *)
Lemma solve_state_with_repeats :
  wf (_puzzle double_five)
  ∧ ∃ self' h, solve 81 0 0 double_five = (Ret true, self')
               ∧ Write 8 8 9 h ∈ history self'
               ∧ ¬ no_repeats h.
Proof.
  split; [apply wf_check; reflexivity|].
  eexists _, _. split; [vm_compute; reflexivity|]. split; [left|].
  intros Hno. specialize (Hno (Row 0)). simpl in Hno.
  assert (0 ≤ 0 < 9) as H0 by lia. specialize (Hno H0).
  vm_compute in Hno. apply NoDup_cons in Hno as [Hnot _]. apply Hnot. left.
Qed.

Lemma solve_keeps_filled_witness :
  cell (_puzzle (solve 81 0 0 four_blanks).2) (0, 2) = 4
  ∧ cell (_puzzle four_blanks) (0, 0) = 0
  ∧ keeps (_puzzle four_blanks) after_first_store.
Proof.
  destruct (solve_keeps_filled 81 four_blanks (solve 81 0 0 four_blanks).1
              (solve 81 0 0 four_blanks).2 (history (solve 81 0 0 four_blanks).2))
    as [Hkeep Hstores].
  - lia.
  - apply wf_check; reflexivity.
  - vm_compute; reflexivity.
  - vm_compute; reflexivity.
  - split.
    + apply (Hkeep (0, 2)); [split; simpl; lia|vm_compute; discriminate].
    + exact (Hstores 0 0 3 after_first_store first_store_logged).
Defined.

Lemma is_valid_guess_iff_witness :
  ∃ b : bool,
    _is_valid_guess four_blanks 0 0 3 = Ret b
    ∧ (b = true ↔
       (∀ c, 0 ≤ c < 9 → cell (_puzzle four_blanks) (0, c) ≠ 3)
       ∧ (∀ r, 0 ≤ r < 9 → cell (_puzzle four_blanks) (r, 0) ≠ 3)
       ∧ (∀ r c, (0 / 3) * 3 ≤ r ≤ (0 / 3) * 3 + 2 →
                 (0 / 3) * 3 ≤ c ≤ (0 / 3) * 3 + 2 →
                 cell (_puzzle four_blanks) (r, c) ≠ 3)).
Proof.
  apply (is_valid_guess_iff four_blanks 0 0 3); [apply wf_check; reflexivity|lia|lia].
Defined.

Example is_valid_guess_examples :
  _is_valid_guess four_blanks 0 0 3 = Ret true
  ∧ _is_valid_guess four_blanks 0 0 4 = Ret false
  ∧ _is_valid_guess four_blanks 0 1 5 = Ret false
  ∧ _is_valid_guess four_blanks 9 0 1 = Raise IndexError.
Proof. repeat split; reflexivity. Qed.

(** The call of [_is_valid_guess(0, 0, 4)] on [four_blanks], as recorded. *)
Lemma check_logged :
  Check 0 0 4 after_first_store ∈ history (solve 81 0 0 four_blanks).2.
Proof. apply (list_elem_of_lookup_2 _ 15%nat). vm_compute. reflexivity. Defined.

Example check_after_first_store : 0 ≤ cell after_first_store (0, 0) < 4.
Proof.
  apply (check_sees_smaller 81 four_blanks (solve 81 0 0 four_blanks).1
           (solve 81 0 0 four_blanks).2 (history (solve 81 0 0 four_blanks).2)).
  - lia.
  - apply wf_check; reflexivity.
  - vm_compute; reflexivity.
  - vm_compute; reflexivity.
  - exact check_logged.
Defined.

(** On [four_blanks] the descent after storing 3 at (0,0) fails, and
    on [dead_end] the loop at (8,8) runs out of candidates. *)
Lemma candidate_not_undone_witness :
  (_puzzle (solve 80 0 1 (puzzle_set 0 0 3
              (record (Check 0 0 3 (_puzzle four_blanks)) four_blanks)).2).2
   = after_first_store
   ∧ cell after_first_store (0, 0) = 3)
  ∧ ∃ (b : bool) s1 evs,
      try_guesses (solve 0) 8 8 (range 1 10) dead_end = (Ret b, s1)
      ∧ history s1 = evs ++ history dead_end
      ∧ (∀ v h, Write 8 8 v h ∈ evs → v ≠ 0)
      ∧ if b
        then solve 1 8 8 dead_end = (Ret true, s1)
        else ∃ s2, puzzle_set 8 8 0 s1 = (Ret (), s2)
                   ∧ solve 1 8 8 dead_end = (Ret false, s2)
                   ∧ _puzzle s2 = _puzzle dead_end.
Proof.
  split.
  - destruct (candidate_not_undone 80 0 0 four_blanks) as [Hstay _].
    + apply wf_check; reflexivity.
    + split; simpl; lia.
    + vm_compute; discriminate.
    + destruct (Hstay 3 [4; 5; 6; 7; 8; 9]
                  (puzzle_set 0 0 3
                     (record (Check 0 0 3 (_puzzle four_blanks)) four_blanks)).2
                  0 1
                  (solve 80 0 1 (puzzle_set 0 0 3
                     (record (Check 0 0 3 (_puzzle four_blanks)) four_blanks)).2).2)
        as (Hgrid & Hcell & _).
      * apply (bool_decide_unpack _). vm_compute. exact I.
      * vm_compute; reflexivity.
      * vm_compute; reflexivity.
      * reflexivity.
      * vm_compute; reflexivity.
      * split; [vm_compute; reflexivity|reflexivity].
  - destruct (candidate_not_undone 0 8 8 dead_end) as [_ Hloop].
    + apply wf_check; reflexivity.
    + split; simpl; lia.
    + vm_compute; discriminate.
    + apply Hloop. reflexivity.
Defined.

(** C6 as stated fails.  On [four_blanks] candidate 3 is stored at
    (0,0); the descent fails (the callee's last store resets (0,1) to
    zero); the very next step is the legality check of candidate 4 at
    (0,0), and the cell still holds 3. *)
Lemma check_sees_failed_candidate :
  wf (_puzzle four_blanks)
  ∧ ∃ self' h,
      solve 81 0 0 four_blanks = (Ret true, self')
      ∧ rev (history self') !! 3%nat = Some (Write 0 0 3 h)
      ∧ rev (history self') !! 13%nat = Some (Write 0 1 0 h)
      ∧ rev (history self') !! 14%nat = Some (Check 0 0 4 h)
      ∧ cell h (0, 0) = 3.
Proof.
  split; [apply wf_check; reflexivity|].
  eexists _, after_first_store.
  split; [vm_compute; reflexivity|]. repeat split.
Qed.

Lemma next_location_spec_witness :
  (8 < 8 → _next_location 3 8 = Some (3, 8 + 1))
  ∧ (8 = 8 → 3 < 8 → _next_location 3 8 = Some (3 + 1, 0))
  ∧ (_next_location 3 8 = None ↔ 3 = 8 ∧ 8 = 8).
Proof. apply (next_location_spec 3 8); lia. Defined.

Example next_location_examples :
  _next_location 0 0 = Some (0, 1) ∧ _next_location 3 8 = Some (4, 0)
  ∧ _next_location 8 7 = Some (8, 8) ∧ _next_location 8 8 = None.
Proof. repeat split; reflexivity. Qed.

Lemma solve_first_completion_witness :
  ∃ (b : bool) s1 s2,
    solve 81 0 0 four_blanks = (Ret b, s1)
    ∧ solve 100 0 0 (record (Check 0 0 0 []) four_blanks) = (Ret b, s2)
    ∧ _puzzle s1 = _puzzle s2
    ∧ if b
      then completion 0 (_puzzle four_blanks) (_puzzle s1)
           ∧ ∀ g'', completion 0 (_puzzle four_blanks) g'' → lex_le (_puzzle s1) g''
      else ∀ g'', ¬ completion 0 (_puzzle four_blanks) g''.
Proof.
  apply (solve_first_completion 81 100 four_blanks
           (record (Check 0 0 0 []) four_blanks));
    [lia|lia|apply wf_check; reflexivity|reflexivity].
Defined.

Lemma solve_full_unchanged_witness :
  ∃ self',
    solve 81 0 0 filled_double_five = (Ret true, self')
    ∧ _puzzle self' = _puzzle filled_double_five
    ∧ ∀ evs, history self' = evs ++ history filled_double_five →
             ∀ i j v h, Write i j v h ∉ evs.
Proof.
  assert (wf (_puzzle filled_double_five)) as Hwf by (apply wf_check; reflexivity).
  apply (solve_full_unchanged 81 filled_double_five); [lia|exact Hwf|].
  intros q Hq. destruct (wf_cell _ q Hwf Hq) as (row & Hrow & _ & Hv).
  assert (Forall (Forall (λ v, v ≠ 0)) (_puzzle filled_double_five)) as Hall
    by (apply (bool_decide_unpack _); vm_compute; exact I).
  rewrite Forall_forall in Hall.
  apply list_elem_of_lookup_2, Hall in Hrow. rewrite Forall_forall in Hrow.
  by apply list_elem_of_lookup_2, Hrow in Hv.
Defined.

(** ** Claims about the constructor *)

Lemma list_map_Ret {A B} (f : A → result B) (g : A → B) (l : list A) :
  (∀ x, In x l → f x = Ret (g x)) → list_map f l = Ret (map g l).
Proof.
  induction l as [|x l IH]; intros Hf; [done|].
  simpl. rewrite (Hf x) by by left. cbn.
  rewrite IH; [done|]. intros y Hy. apply Hf. by right.
Qed.

Lemma list_map_Raise {A B} (f : A → result B) (e : exn) (l : list A) :
  (∀ x, In x l → (∃ y, f x = Ret y) ∨ f x = Raise e) →
  (∃ x, In x l ∧ f x = Raise e) → list_map f l = Raise e.
Proof.
  induction l as [|x l IH]; intros Hf (bad & Hin & Hbad); [done|].
  simpl. destruct (Hf x) as [[y Hy]| ->]; [by left| |done].
  rewrite Hy. cbn. rewrite IH; [done| |].
  - intros z Hz. apply Hf. by right.
  - destruct Hin as [->|Hin]; [congruence|]. by exists bad.
Qed.

Lemma list_map_map {A B C} (f : B → result C) (h : A → B) (l : list A) :
  list_map f (map h l) = list_map (λ x, f (h x)) l.
Proof. induction l as [|x l IH]; [done|]. simpl. by rewrite IH. Qed.

Lemma singles (s : str) :
  map (λ k, slice s k 1) (seq 0 (length s)) = map (λ c, [c]) s.
Proof.
  induction s as [|c s IH]; [done|].
  simpl length. rewrite <- cons_seq, <- seq_shift, map_cons, map_map.
  rewrite map_cons. f_equal. exact IH.
Qed.

Lemma split_interval_pos (s : str) (n : nat) :
  (0 < n)%nat →
  _split_string_interval s n
  = Ret (map (λ x, slice s x n)
             (map (λ k, k * n)%nat (seq 0 ((length s + n - 1) / n)))).
Proof. destruct n; [lia|reflexivity]. Qed.

Lemma split_interval_1 (s : str) :
  _split_string_interval s 1 = Ret (map (λ c, [c]) s).
Proof.
  rewrite split_interval_pos by lia.
  rewrite Nat.add_sub, Nat.div_1_r, map_map. f_equal.
  rewrite <- singles. apply map_ext. intros k. by rewrite Nat.mul_1_r.
Qed.

Lemma parse_row_digits `{db : UnicodeDb} (ch : str) :
  all_digits ch → parse_row ch = Ret (map value ch).
Proof.
  intros Hall. unfold parse_row. rewrite split_interval_1. cbn.
  rewrite list_map_map. apply list_map_Ret. intros c Hc%list_elem_of_In. simpl.
  unfold all_digits in Hall. rewrite Forall_forall in Hall.
  unfold value. specialize (Hall c Hc). by destruct (digit_value c).
Qed.

Lemma not_all_digits `{db : UnicodeDb} (s : str) :
  ¬ all_digits s → ∃ c, In c s ∧ digit_value c = None.
Proof.
  intros Hbad. apply not_Forall_Exists in Hbad; [|apply _].
  apply Exists_exists in Hbad as (c & Hc & Hn).
  exists c. split; [by apply list_elem_of_In|].
  simpl in Hn. destruct (digit_value c); [|done]. by destruct Hn.
Qed.

Lemma parse_row_bad `{db : UnicodeDb} (ch : str) :
  ¬ all_digits ch → parse_row ch = Raise ValueError.
Proof.
  intros (c & Hc & Hnone)%not_all_digits.
  unfold parse_row. rewrite split_interval_1. cbn.
  rewrite list_map_map. apply list_map_Raise.
  - intros c' _. simpl. destruct (digit_value c'); eauto.
  - exists c. split; [done|]. simpl. by rewrite Hnone.
Qed.

Lemma concat_slices (s : str) (n m : nat) :
  concat (map (λ x, slice s x n) (map (λ k, k * n)%nat (seq 0 m)))
  = take (m * n) s.
Proof.
  induction m as [|m IH]; [done|].
  rewrite seq_S, !map_app, concat_app, IH. simpl. rewrite app_nil_r.
  unfold slice. rewrite take_take_drop. f_equal. lia.
Qed.

Lemma concat_chunks (s : str) : concat (chunks s) = s.
Proof.
  unfold chunks. rewrite concat_slices. apply take_ge.
  pose proof (Nat.div_mod (length s + 9 - 1) 9).
  pose proof (Nat.mod_upper_bound (length s + 9 - 1) 9). lia.
Qed.

Lemma create_puzzle_grid_eq `{db : UnicodeDb} (string : str) :
  _create_puzzle_grid string = list_map parse_row (chunks string).
Proof. reflexivity. Qed.

Lemma chunk_digits `{db : UnicodeDb} (string ch : str) :
  all_digits string → In ch (chunks string) → all_digits ch.
Proof.
  unfold all_digits. rewrite !Forall_forall.
  intros Hall Hch c Hc%list_elem_of_In. apply Hall, list_elem_of_In.
  rewrite <- (concat_chunks string). apply in_concat. eauto.
Qed.

(** Digits of another script are read like the ASCII ones, and printed
    in ASCII. *)
Example init_reads_other_digits :
  __init__ (db := arabic_indic) [49; 50; 1635]%N = Ret (mkSudoku [[1; 2; 3]] [])
  ∧ __str__ (mkSudoku [[1; 2; 3]] []) = chars_of "1 2 3" ++ [newline].
Proof. split; reflexivity. Qed.

(** C9 (as amended).  The constructor checks neither length nor
    alphabet itself.  A string of decimal digits (['0'] to ['9'], or the
    decimal digits of any other script, which [int] reads as well),
    whatever its length [n], is accepted: the grid has [(n + 8) // 9]
    rows, which hold the values of the digits in order, and is 9x9 when
    [n] is 81.  A string with a character that is not a decimal digit
    makes [int] raise [ValueError], so no grid is built. *)
Theorem init_outcome `{db : UnicodeDb} (string : str) :
  (all_digits string →
     ∃ puzzle, __init__ string = Ret (mkSudoku puzzle [])
               ∧ concat puzzle = map value string
               ∧ length puzzle = ((length string + 8) / 9)%nat
               ∧ (length string = 81%nat → wf puzzle))
  ∧ (¬ all_digits string → __init__ string = Raise ValueError).
Proof.
  unfold __init__. rewrite create_puzzle_grid_eq. split.
  - intros Hall. exists (map (map value) (chunks string)).
    rewrite (list_map_Ret parse_row (map value)); cycle 1.
    { intros ch Hch. apply parse_row_digits. by eapply chunk_digits. }
    split; [done|]. split; [by rewrite <- concat_map, concat_chunks|].
    split.
    + unfold chunks. rewrite !length_map, length_seq. f_equal. lia.
    + intros Hlen. split.
      * unfold chunks. by rewrite !length_map, length_seq, Hlen.
      * apply Forall_forall. intros row Hrow%list_elem_of_In.
        apply in_map_iff in Hrow as (ch & <- & Hch). rewrite length_map.
        unfold chunks in Hch. rewrite Hlen in Hch.
        apply in_map_iff in Hch as (x & <- & Hx).
        apply in_map_iff in Hx as (k & <- & Hk%in_seq).
        change ((81 + 9 - 1) / 9)%nat with 9%nat in Hk.
        unfold slice. rewrite length_take, length_drop. lia.
  - intros Hbad. rewrite (list_map_Raise parse_row ValueError); [done|..].
    + intros ch _. destruct (decide (all_digits ch)) as [Hok|Hno].
      * left. exists (map value ch). by apply parse_row_digits.
      * right. by apply parse_row_bad.
    + apply not_all_digits in Hbad as (c & Hc & Hnone).
      rewrite <- (concat_chunks string) in Hc.
      apply in_concat in Hc as (ch & Hch & Hc).
      exists ch. split; [done|]. apply parse_row_bad.
      unfold all_digits. rewrite Forall_forall. intros Hall.
      by apply (Hall c); [apply list_elem_of_In|].
Qed.

Lemma init_outcome_witness :
  (∃ puzzle,
     of_literal (db := arabic_indic)
       "004678912672195348198342567859761423426853791713924856961537284287419635005286179"
     = Ret (mkSudoku puzzle [])
     ∧ wf puzzle)
  ∧ (∃ puzzle,
       __init__ (db := arabic_indic) [49; 50; 1635]%N = Ret (mkSudoku puzzle [])
       ∧ concat puzzle = [1; 2; 3])
  ∧ of_literal (db := arabic_indic) "12a" = Raise ValueError.
Proof.
  split_and!.
  - destruct (proj1 (init_outcome (db := arabic_indic) (chars_of
      "004678912672195348198342567859761423426853791713924856961537284287419635005286179")))
      as (puzzle & Hinit & _ & _ & Hwf).
    + apply (bool_decide_unpack _). vm_compute. exact I.
    + exists puzzle. split; [exact Hinit|]. apply Hwf. reflexivity.
  - destruct (proj1 (init_outcome (db := arabic_indic) [49; 50; 1635]%N))
      as (puzzle & Hinit & Hcat & _).
    + apply (bool_decide_unpack _). vm_compute. exact I.
    + exists puzzle. split; [exact Hinit|exact Hcat].
  - apply (proj2 (init_outcome (db := arabic_indic) (chars_of "12a"))).
    apply (bool_decide_unpack _). vm_compute. exact I.
Defined.

(** C9 as stated fails: ten digits are accepted, and give a grid of two
    rows, the second with a single cell. *)
Lemma init_accepts_short :
  length (chars_of "1234567890") ≠ 81%nat
  ∧ ∀ db : UnicodeDb,
      of_literal "1234567890" = Ret (mkSudoku [[1; 2; 3; 4; 5; 6; 7; 8; 9]; [0]] []).
Proof. split; [vm_compute; discriminate|intros db; reflexivity]. Qed.

(** * Further properties of the code *)

(** ** [_split_string_interval] *)

Example str_examples :
  py_str 0 = chars_of "0" ∧ py_str 7 = chars_of "7"
  ∧ py_str 120 = chars_of "120"
  ∧ py_str (-35) = chars_of "-35".
Proof. repeat split; reflexivity. Qed.

Lemma ceil_div_bounds (len n k : nat) :
  (0 < n)%nat → (k < (len + n - 1) / n)%nat → (k * n < len)%nat.
Proof.
  intros Hn Hk.
  pose proof (Nat.div_mod (len + n - 1) n ltac:(lia)) as Hdm.
  pose proof (Nat.mod_upper_bound (len + n - 1) n ltac:(lia)).
  assert (S k * n ≤ n * ((len + n - 1) / n))%nat by nia. lia.
Qed.

Lemma ceil_div_covers (len n : nat) :
  (0 < n)%nat → (len ≤ (len + n - 1) / n * n)%nat.
Proof.
  intros Hn.
  pose proof (Nat.div_mod (len + n - 1) n ltac:(lia)).
  pose proof (Nat.mod_upper_bound (len + n - 1) n ltac:(lia)). lia.
Qed.

Lemma ceil_div_full (len n k : nat) :
  (0 < n)%nat → (S k < (len + n - 1) / n)%nat → (k * n + n ≤ len)%nat.
Proof.
  intros Hn Hk. pose proof (ceil_div_bounds len n (S k) Hn Hk). lia.
Qed.

(** X1.  A zero interval makes [_split_string_interval] raise
    [ValueError].  A positive interval [n] cuts the string into
    [ceil(len / n)] pieces that concatenate back to the string; every
    piece holds between 1 and [n] characters and every piece but the
    last holds exactly [n]. *)
Theorem split_string_interval_pieces (string : str) (n : nat) :
  (n = 0%nat → _split_string_interval string n = Raise ValueError)
  ∧ ((0 < n)%nat →
     ∃ pieces,
       _split_string_interval string n = Ret pieces
       ∧ concat pieces = string
       ∧ length pieces = ((length string + n - 1) / n)%nat
       ∧ Forall (λ piece : str, (1 ≤ length piece ≤ n)%nat) pieces
       ∧ ∀ front last, pieces = front ++ [last] →
                       Forall (λ piece : str, length piece = n) front).
Proof.
  split; [by intros ->|]. intros Hn.
  rewrite split_interval_pos by done. eexists. split; [done|].
  set (m := ((length string + n - 1) / n)%nat).
  assert (∀ k, (k < m)%nat → (k * n < length string)%nat) as Hstart
    by (intros k; by apply ceil_div_bounds).
  split_and!.
  - rewrite concat_slices. apply take_ge. by apply ceil_div_covers.
  - by rewrite !length_map, length_seq.
  - apply Forall_forall. intros piece Hin%list_elem_of_In.
    apply in_map_iff in Hin as (x & <- & Hx).
    apply in_map_iff in Hx as (k & <- & Hk%in_seq).
    unfold slice. rewrite length_take, length_drop.
    specialize (Hstart k ltac:(lia)). lia.
  - intros front last Heq. destruct m as [|m'] eqn:Hm; [by destruct front|].
    rewrite seq_S, !map_app in Heq. simpl in Heq.
    apply app_inj_tail in Heq as [<- _].
    apply Forall_forall. intros piece Hin%list_elem_of_In.
    apply in_map_iff in Hin as (x & <- & Hx).
    apply in_map_iff in Hx as (k & <- & Hk%in_seq).
    unfold slice. rewrite length_take, length_drop.
    pose proof (ceil_div_full (length string) n k Hn) as Hfull.
    fold m in Hfull. rewrite Hm in Hfull. lia.
Qed.

Lemma split_string_interval_pieces_witness :
  _split_string_interval (chars_of "abc") 0 = Raise ValueError
  ∧ ∃ pieces,
      _split_string_interval (chars_of "abcdefghij") 4 = Ret pieces
      ∧ concat pieces = chars_of "abcdefghij"
      ∧ length pieces = ((10 + 4 - 1) / 4)%nat
      ∧ Forall (λ piece : str, (1 ≤ length piece ≤ 4)%nat) pieces
      ∧ ∀ front last, pieces = front ++ [last] →
                      Forall (λ piece : str, length piece = 4%nat) front.
Proof.
  split.
  - apply (proj1 (split_string_interval_pieces (chars_of "abc") 0)).
    reflexivity.
  - apply (proj2 (split_string_interval_pieces (chars_of "abcdefghij") 4)).
    lia.
Defined.

(** ** The constructor, cell by cell *)

Lemma create_digits `{db : UnicodeDb} (string : str) :
  all_digits string →
  _create_puzzle_grid string = Ret (map (map value) (chunks string)).
Proof.
  intros Hall. rewrite create_puzzle_grid_eq.
  apply list_map_Ret. intros ch Hch. apply parse_row_digits.
  by eapply chunk_digits.
Qed.

Lemma create_bad `{db : UnicodeDb} (string : str) :
  ¬ all_digits string → _create_puzzle_grid string = Raise ValueError.
Proof.
  intros Hbad. rewrite create_puzzle_grid_eq. apply list_map_Raise.
  - intros ch _. destruct (decide (all_digits ch)) as [Hok|Hno].
    + left. exists (map value ch). by apply parse_row_digits.
    + right. by apply parse_row_bad.
  - apply not_all_digits in Hbad as (c & Hc & Hnone).
    rewrite <- (concat_chunks string) in Hc.
    apply in_concat in Hc as (ch & Hch & Hc).
    exists ch. split; [done|]. apply parse_row_bad.
    unfold all_digits. rewrite Forall_forall. intros Hall.
    by apply (Hall c); [apply list_elem_of_In|].
Qed.

Lemma init_Ret `{db : UnicodeDb} (string : str) (self : Sudoku) :
  __init__ string = Ret self →
  all_digits string ∧ self = mkSudoku (map (map value) (chunks string)) [].
Proof.
  unfold __init__. intros Hinit.
  destruct (decide (all_digits string)) as [Hall|Hbad].
  - rewrite create_digits in Hinit by done. by injection Hinit as <-.
  - by rewrite create_bad in Hinit.
Qed.

Lemma value_range `{db : UnicodeDb} (c : N) : 0 ≤ value c ≤ 9.
Proof.
  unfold value, digit_value.
  destruct (N.leb_spec 48 c), (N.leb_spec c 57); simpl; try lia.
  all: destruct (c <? 128)%N; simpl; try lia.
  all: destruct (decimal c) as [d|] eqn:Hd; simpl; try lia.
  all: by apply (decimal_range c).
Qed.

Lemma chunks_cell `{db : UnicodeDb} (string : str) (r c : nat) :
  length string = 81%nat → (r < 9)%nat → (c < 9)%nat →
  map (map value) (chunks string) !! r ≫= (λ row : list Z, row !! c)
  = value <$> string !! (9 * r + c)%nat.
Proof.
  intros Hlen Hr Hc. unfold chunks. rewrite Hlen.
  change ((81 + 9 - 1) / 9)%nat with 9%nat.
  change (map (map value)) with (fmap (M := list) (map value)).
  change (map (λ x, slice string x 9)) with (fmap (M := list) (λ x, slice string x 9)).
  change (map (λ k, k * 9)%nat) with (fmap (M := list) (λ k, k * 9)%nat).
  rewrite !list_lookup_fmap, lookup_seq_lt by done. simpl.
  change (map value) with (fmap (M := list) value).
  unfold slice. rewrite list_lookup_fmap, lookup_take_lt, lookup_drop by done.
  do 2 f_equal. lia.
Qed.

Lemma init_shape `{db : UnicodeDb} (string : str) :
  length string = 81%nat → wf (map (map value) (chunks string)).
Proof.
  intros Hlen. split.
  - unfold chunks. by rewrite !length_map, length_seq, Hlen.
  - apply Forall_forall. intros row Hrow%list_elem_of_In.
    apply in_map_iff in Hrow as (ch & <- & Hch). rewrite length_map.
    unfold chunks in Hch. rewrite Hlen in Hch.
    apply in_map_iff in Hch as (x & <- & Hx).
    apply in_map_iff in Hx as (k & <- & Hk%in_seq).
    change ((81 + 9 - 1) / 9)%nat with 9%nat in Hk.
    unfold slice. rewrite length_take, length_drop. lia.
Qed.

(** X2.  When the constructor accepts a string of 81 characters, the
    grid is 9x9, every cell is a digit 0..9, and the cell in row [r],
    column [c] is the digit of character [9 r + c] of the string. *)
Theorem init_cells `{db : UnicodeDb} (string : str) (self : Sudoku) :
  length string = 81%nat → __init__ string = Ret self →
  wf (_puzzle self) ∧ digits (_puzzle self) ∧ history self = []
  ∧ ∀ r c : nat, (r < 9)%nat → (c < 9)%nat →
      value <$> string !! (9 * r + c)%nat
      = Some (cell (_puzzle self) (Z.of_nat r, Z.of_nat c)).
Proof.
  intros Hlen [Hall ->]%init_Ret. simpl.
  assert (∀ r c : nat, (r < 9)%nat → (c < 9)%nat →
            value <$> string !! (9 * r + c)%nat
            = Some (cell (map (map value) (chunks string))
                         (Z.of_nat r, Z.of_nat c))) as Hcells.
  { intros r c Hr Hc. unfold cell. cbn [fst snd]. rewrite !Nat2Z.id.
    rewrite chunks_cell by done. unfold str in *.
    destruct (lookup_lt_is_Some_2 string (9 * r + c)) as [ch ->]; [lia|done]. }
  split_and!; [by apply init_shape| |done|done].
  intros [i j] [Hi Hj]. simpl in *.
  specialize (Hcells (Z.to_nat i) (Z.to_nat j) ltac:(lia) ltac:(lia)).
  rewrite !Z2Nat.id in Hcells by lia.
  destruct (string !! _) as [ch|]; [|done].
  injection Hcells as <-. apply value_range.
Qed.

Lemma init_cells_witness :
  value (db := arabic_indic) <$> chars_of
    "004678912672195348198342567859761423426853791713924856961537284287419635005286179"
    !! (9 * 1 + 2)%nat
  = Some (cell (_puzzle four_blanks) (Z.of_nat 1, Z.of_nat 2)).
Proof.
  apply (init_cells (db := arabic_indic) (chars_of
    "004678912672195348198342567859761423426853791713924856961537284287419635005286179")
    four_blanks); [reflexivity|reflexivity|lia|lia].
Defined.

(** ** [__str__] *)

Lemma str_fold (acc : str) (g : grid) :
  foldl (λ output row, output ++ (join [blank] (map py_str row) ++ [newline]))
        acc g
  = acc ++ concat (map line g).
Proof.
  revert acc. induction g as [|row g IH]; intros acc; simpl.
  - by rewrite app_nil_r.
  - rewrite IH. unfold line. by rewrite <- app_assoc.
Qed.

Lemma str_lines (self : Sudoku) : __str__ self = concat (map line (_puzzle self)).
Proof. unfold __str__. by rewrite str_fold. Qed.

Lemma py_str_digit (v : Z) : 0 ≤ v ≤ 9 → py_str v = [digit_char v].
Proof.
  intros Hv.
  assert (v = 0 ∨ v = 1 ∨ v = 2 ∨ v = 3 ∨ v = 4 ∨ v = 5 ∨ v = 6 ∨ v = 7
          ∨ v = 8 ∨ v = 9) as Hcases by lia.
  destruct Hcases as [->|[->|[->|[->|[->|[->|[->|[->|[->| ->]]]]]]]]]; reflexivity.
Qed.

Lemma digit_char_plain (v : Z) :
  0 ≤ v ≤ 9 →
  N.eqb (digit_char v) blank = false ∧ N.eqb (digit_char v) newline = false.
Proof.
  intros Hv. unfold digit_char, blank, newline. split; apply N.eqb_neq; lia.
Qed.

Lemma digit_char_value `{db : UnicodeDb} (c : N) :
  (48 ≤ c ≤ 57)%N → digit_char (value c) = c.
Proof.
  intros Hc. unfold value, digit_value, digit_char.
  destruct (N.leb_spec 48 c), (N.leb_spec c 57); simpl; lia.
Qed.

Lemma unformat_app (a b : str) : unformat (a ++ b) = unformat a ++ unformat b.
Proof. apply List.filter_app. Qed.

Lemma unformat_join `{db : UnicodeDb} (ch : str) :
  unformat (join [blank] (map py_str (map value ch)))
  = map (λ c, digit_char (value c)) ch.
Proof.
  induction ch as [|c rest IH]; [done|].
  destruct (digit_char_plain (value c) (value_range c)) as (Hsp & Hnl).
  assert (unformat (py_str (value c)) = [digit_char (value c)]) as Hone.
  { rewrite py_str_digit by apply value_range.
    unfold unformat. simpl. by rewrite Hsp, Hnl. }
  destruct rest as [|c' rest]; [done|].
  change (join [blank] (map py_str (map value (c :: c' :: rest))))
    with (py_str (value c) ++ [blank]
          ++ join [blank] (map py_str (map value (c' :: rest)))).
  by rewrite !unformat_app, Hone, IH.
Qed.

Lemma unformat_line `{db : UnicodeDb} (ch : str) :
  unformat (line (map value ch)) = map (λ c, digit_char (value c)) ch.
Proof.
  unfold line. rewrite unformat_app, unformat_join.
  apply app_nil_r.
Qed.

(** X3.  Printing what the constructor read gives the digits of the
    input back, in ASCII: in [str(Sudoku(string))] the characters other
    than blanks and line ends are, in order, the ASCII digits of the
    values of the characters of [string], whatever its length.  So a
    string of ASCII digits is printed back as it is, while a digit of
    another script comes back as its ASCII counterpart. *)
Theorem str_init_round_trip `{db : UnicodeDb} (string : str) (self : Sudoku) :
  __init__ string = Ret self →
  unformat (__str__ self) = map (λ c, digit_char (value c)) string
  ∧ (ascii_digits string → unformat (__str__ self) = string).
Proof.
  intros [Hall ->]%init_Ret. rewrite str_lines. simpl.
  assert (unformat (concat (map line (map (map value) (chunks string))))
          = map (λ c, digit_char (value c)) string) as Hprint.
  { unfold unformat. rewrite <- concat_filter_map, map_map.
    rewrite <- (concat_chunks string) at 2. rewrite concat_map. f_equal.
    rewrite map_map. apply map_ext_in. intros ch Hch. apply unformat_line. }
  split; [done|]. intros Hascii. rewrite Hprint.
  rewrite <- (map_id string) at 2. apply map_ext_in.
  intros c Hc. apply digit_char_value.
  unfold ascii_digits in Hascii. rewrite Forall_forall in Hascii.
  by apply Hascii, list_elem_of_In.
Qed.

Lemma str_init_round_trip_witness :
  unformat (__str__ four_blanks)
  = chars_of
      "004678912672195348198342567859761423426853791713924856961537284287419635005286179"
  ∧ unformat (__str__ (mkSudoku [[1; 2; 3]] [])) = chars_of "123".
Proof.
  split.
  - apply (str_init_round_trip (db := arabic_indic) (chars_of
      "004678912672195348198342567859761423426853791713924856961537284287419635005286179")
      four_blanks); [reflexivity|].
    apply (bool_decide_unpack _). vm_compute. exact I.
  - exact (proj1 (str_init_round_trip (db := arabic_indic) [49; 50; 1635]%N
                    (mkSudoku [[1; 2; 3]] []) eq_refl)).
Defined.

Example str_four_blanks_first_line :
  take 18 (__str__ four_blanks)
  = chars_of "0 0 4 6 7 8 9 1 2" ++ [newline].
Proof. reflexivity. Qed.

Lemma nine_items {A} (l : list A) :
  length l = 9%nat →
  ∃ a0 a1 a2 a3 a4 a5 a6 a7 a8, l = [a0; a1; a2; a3; a4; a5; a6; a7; a8].
Proof.
  intros Hlen.
  destruct l as [|a0 [|a1 [|a2 [|a3 [|a4 [|a5 [|a6 [|a7 [|a8 [|]]]]]]]]]];
    try discriminate Hlen.
  by exists a0, a1, a2, a3, a4, a5, a6, a7, a8.
Qed.

Lemma line_layout (row : list Z) :
  length row = 9%nat → Forall (λ v, 0 ≤ v ≤ 9) row →
  length (line row) = 18%nat
  ∧ ∀ c : nat, (c < 9)%nat →
      line row !! (2 * c)%nat = digit_char <$> row !! c
      ∧ line row !! (2 * c + 1)%nat
        = Some (if Nat.eqb c 8 then newline else blank).
Proof.
  intros (a0 & a1 & a2 & a3 & a4 & a5 & a6 & a7 & a8 & ->)%nine_items Hdig.
  repeat (apply Forall_cons in Hdig as [? Hdig]).
  unfold line. simpl map. cbn [join].
  rewrite !py_str_digit by done. split; [done|].
  intros c Hc.
  destruct c as [|[|[|[|[|[|[|[|[|]]]]]]]]]; try lia; by split.
Qed.

Lemma rows_digits (g : grid) (r : nat) (row : list Z) :
  wf g → digits g → g !! r = Some row →
  length row = 9%nat ∧ Forall (λ v, 0 ≤ v ≤ 9) row
  ∧ ∀ c : nat, (c < 9)%nat → row !! c = Some (cell g (Z.of_nat r, Z.of_nat c)).
Proof.
  intros Hwf Hdig Hrow.
  assert (r < 9)%nat as Hr.
  { apply lookup_lt_Some in Hrow. destruct Hwf as [Hlen _]. lia. }
  assert (length row = 9%nat) as Hlen
    by by eapply (Forall_lookup_1 _ _ _ _ (proj2 Hwf)).
  assert (∀ c : nat, (c < 9)%nat →
            row !! c = Some (cell g (Z.of_nat r, Z.of_nat c))) as Hcells.
  { intros c Hc. unfold cell. cbn [fst snd]. rewrite !Nat2Z.id, Hrow. simpl.
    by destruct (lookup_lt_is_Some_2 row c) as [v ->]; [lia|]. }
  split_and!; [done| |done].
  apply Forall_lookup. intros c v Hv.
  assert (c < 9)%nat as Hc by (apply lookup_lt_Some in Hv; lia).
  rewrite Hcells in Hv by done. injection Hv as <-.
  apply Hdig. split; simpl; lia.
Qed.

Lemma concat_mjoin {A} (ls : list (list A)) : concat ls = mjoin ls.
Proof. induction ls as [|l ls IH]; [done|]. simpl. by rewrite IH. Qed.

Lemma length_concat_uniform {A} (n : nat) (ls : list (list A)) :
  Forall (λ l, length l = n) ls → length (concat ls) = (length ls * n)%nat.
Proof.
  induction 1 as [|l ls Hl _ IH]; [done|].
  simpl. rewrite length_app, IH, Hl. lia.
Qed.

(** X4.  For a 9x9 grid of digits [__str__] returns 162 characters,
    nine lines of 18: in line [r] the character at offset [2 c] is the
    digit of cell [(r, c)], followed by a blank, or by the line end
    after the ninth digit. *)
Theorem str_layout (self : Sudoku) :
  wf (_puzzle self) → digits (_puzzle self) →
  length (__str__ self) = 162%nat
  ∧ ∀ r c : nat, (r < 9)%nat → (c < 9)%nat →
      __str__ self !! (r * 18 + 2 * c)%nat
      = Some (digit_char (cell (_puzzle self) (Z.of_nat r, Z.of_nat c)))
      ∧ __str__ self !! (r * 18 + (2 * c + 1))%nat
        = Some (if Nat.eqb c 8 then newline else blank).
Proof.
  intros Hwf Hdig. rewrite str_lines.
  assert (Forall (λ l : str, length l = 18%nat) (map line (_puzzle self))) as Hlines.
  { apply Forall_forall. intros l Hl%list_elem_of_In.
    apply in_map_iff in Hl as (row & <- & Hrow%list_elem_of_In).
    apply list_elem_of_lookup in Hrow as [r Hrow].
    destruct (rows_digits _ _ _ Hwf Hdig Hrow) as (Hlen & Hd & _).
    by destruct (line_layout row Hlen Hd). }
  split.
  { rewrite (length_concat_uniform 18) by done.
    rewrite length_map. by destruct Hwf as [-> _]. }
  intros r c Hr Hc.
  destruct (wf_row _ r Hwf Hr) as (row & Hrow & _).
  destruct (rows_digits _ _ _ Hwf Hdig Hrow) as (Hlen & Hd & Hcells).
  destruct (line_layout row Hlen Hd) as [_ Hline].
  destruct (Hline c Hc) as [Hdigit Hsep]. rewrite Hcells in Hdigit by done.
  rewrite concat_mjoin in *. change (map line) with (fmap (M := list) line) in *.
  split.
  - apply (join_lookup_Some_same_length' 18); [done|lia|].
    exists (line row). by rewrite list_lookup_fmap, Hrow.
  - apply (join_lookup_Some_same_length' 18); [done|lia|].
    exists (line row). by rewrite list_lookup_fmap, Hrow.
Qed.

Lemma str_layout_witness :
  length (__str__ four_blanks) = 162%nat
  ∧ __str__ four_blanks !! (1 * 18 + 2 * 2)%nat
    = Some (digit_char (cell (_puzzle four_blanks) (Z.of_nat 1, Z.of_nat 2)))
  ∧ __str__ four_blanks !! (1 * 18 + (2 * 8 + 1))%nat = Some newline.
Proof.
  destruct (str_layout four_blanks) as [Hlen Hat].
  - apply wf_check; reflexivity.
  - apply digits_check; [apply wf_check|]; reflexivity.
  - split; [exact Hlen|]. split.
    + apply (Hat 1 2)%nat; lia.
    + apply (Hat 1 8)%nat; lia.
Defined.

(** ** More on [solve] *)

Lemma solved_facts (g : grid) :
  solved g → distinct g ∧ ∀ q, inr q → 1 ≤ cell g q ≤ 9.
Proof.
  intros Hsolved. split.
  - apply no_repeats_distinct. intros h Hok. apply NoDup_filter.
    rewrite (Hsolved h Hok). apply NoDup_seqZ.
  - intros r Hr.
    assert (cell g r ∈ values g (Row r.1)) as Hin.
    { apply list_elem_of_fmap_2, elem_of_cells_of. by destruct Hr. }
    rewrite (Hsolved (Row r.1)) in Hin by (by destruct Hr).
    apply elem_of_range in Hin. lia.
Qed.

Lemma full_outcome (fuel : nat) (self : Sudoku) :
  (81 ≤ fuel)%nat → wf (_puzzle self) →
  (∀ q, inr q → cell (_puzzle self) q ≠ 0) →
  ∃ self', solve fuel 0 0 self = (Ret true, self') ∧ _puzzle self' = _puzzle self.
Proof.
  intros Hfuel Hwf Hfull.
  destruct (solve_contract fuel self Hfuel Hwf) as (b & self' & Hrun & Hlog & Hb).
  assert (completion 0 (_puzzle self) (_puzzle self)) as Hself.
  { split_and!; [done..|]. intros q Hq _ Hz. by destruct (Hfull q Hq). }
  destruct b; [|destruct Hb as [_ Hnone]; by destruct (Hnone _ Hself)].
  exists self'. split; [done|]. destruct Hb as [(Hwf' & Hsame & _) _].
  apply grid_ext; [done..|]. intros q Hq. apply Hsame; auto.
Qed.

(** X5.  On a 9x9 grid of digits whose fixed digits repeat in no row,
    column or box, [solve(0, 0)] returns true exactly when some solved
    grid extends the input: false is returned only for puzzles without
    a solution. *)
Theorem solve_true_iff_solution (fuel : nat) (self : Sudoku) :
  (81 ≤ fuel)%nat → wf (_puzzle self) → digits (_puzzle self) →
  no_repeats (_puzzle self) →
  ∃ (b : bool) self',
    solve fuel 0 0 self = (Ret b, self')
    ∧ (b = true ↔ ∃ sol, wf sol ∧ keeps (_puzzle self) sol ∧ solved sol).
Proof.
  intros Hfuel Hwf Hdig Hno.
  destruct (solve_contract fuel self Hfuel Hwf) as (b & self' & Hrun & _ & Hb).
  exists b, self'. split; [done|]. destruct b.
  - split; [intros _|done]. destruct Hb as [Hc _].
    exists (_puzzle self'). by apply completion_solution.
  - split; [done|]. intros (sol & Hsol). destruct Hb as [_ Hnone].
    destruct (Hnone sol). by apply completion_solution.
Qed.

Lemma one_blank_checks :
  wf (_puzzle one_blank) ∧ digits (_puzzle one_blank)
  ∧ no_repeats (_puzzle one_blank) ∧ wf full_grid
  ∧ keeps (_puzzle one_blank) full_grid ∧ solved full_grid.
Proof.
  assert (wf (_puzzle one_blank)) as Hwf by (apply wf_check; reflexivity).
  assert (wf full_grid) as Hwf' by (apply wf_check; reflexivity).
  assert (digits full_grid) as Hdig' by (by apply digits_check).
  assert (no_repeats full_grid) as Hno'
    by (apply no_repeats_check; vm_compute; reflexivity).
  split_and!; try done.
  - by apply digits_check.
  - apply no_repeats_check. vm_compute. reflexivity.
  - intros [i j] [Hi Hj] Hnz. simpl in *.
    destruct (small_cases i Hi) as [->|[->|[->|[->|[->|[->|[->|[->| ->]]]]]]]];
    destruct (small_cases j Hj) as [->|[->|[->|[->|[->|[->|[->|[->| ->]]]]]]]];
      first [reflexivity|by destruct Hnz].
  - apply distinct_solved; [by apply no_repeats_distinct|].
    intros [i j] [Hi Hj]. simpl in *.
    destruct (small_cases i Hi) as [->|[->|[->|[->|[->|[->|[->|[->| ->]]]]]]]];
    destruct (small_cases j Hj) as [->|[->|[->|[->|[->|[->|[->|[->| ->]]]]]]]];
      vm_compute; split; discriminate.
Qed.

Lemma solve_true_iff_solution_witness :
  ∃ (b : bool) self',
    solve 81 0 0 one_blank = (Ret b, self')
    ∧ (b = true ↔ ∃ sol, wf sol ∧ keeps (_puzzle one_blank) sol ∧ solved sol).
Proof.
  destruct one_blank_checks as (Hwf & Hdig & Hno & _).
  apply (solve_true_iff_solution 81 one_blank); [lia|exact Hwf|exact Hdig|exact Hno].
Defined.

(** X6.  When the puzzle (digits, no repeats among the fixed ones) has
    exactly one solution, [solve(0, 0)] returns true and leaves that
    solution in the grid. *)
Theorem solve_unique_solution (fuel : nat) (self : Sudoku) (sol : grid) :
  (81 ≤ fuel)%nat → wf (_puzzle self) → digits (_puzzle self) →
  no_repeats (_puzzle self) →
  wf sol → keeps (_puzzle self) sol → solved sol →
  (∀ sol', wf sol' → keeps (_puzzle self) sol' → solved sol' → sol' = sol) →
  ∃ self', solve fuel 0 0 self = (Ret true, self') ∧ _puzzle self' = sol.
Proof.
  intros Hfuel Hwf Hdig Hno Hwfs Hkeeps Hsolved Hunique.
  destruct (solve_contract fuel self Hfuel Hwf) as (b & self' & Hrun & _ & Hb).
  assert (completion 0 (_puzzle self) sol) as Hsol by by apply completion_solution.
  destruct b; [|destruct Hb as [_ Hnone]; by destruct (Hnone sol)].
  exists self'. split; [done|]. destruct Hb as [Hc _].
  apply completion_solution in Hc as (? & ? & ?); [|done..]. by apply Hunique.
Qed.

Lemma one_blank_unique (sol' : grid) :
  wf sol' → keeps (_puzzle one_blank) sol' → solved sol' → sol' = full_grid.
Proof.
  intros Hwf Hkeep [Hd Hfull]%solved_facts.
  destruct one_blank_checks as (_ & _ & _ & Hwf' & _).
  assert (∀ q, inr q → q ≠ (8, 8) → cell sol' q = cell full_grid q) as Hfixed.
  { intros [i j] [Hi Hj] Hne. simpl in *.
    destruct (small_cases i Hi) as [->|[->|[->|[->|[->|[->|[->|[->| ->]]]]]]]];
    destruct (small_cases j Hj) as [->|[->|[->|[->|[->|[->|[->|[->| ->]]]]]]]];
      first [done|rewrite Hkeep; [reflexivity|split; simpl; lia|vm_compute; discriminate]]. }
  assert (inr (8, 8)) as H88 by (split; simpl; lia).
  assert (∀ c, 0 ≤ c < 8 → cell sol' (8, 8) ≠ cell full_grid (8, c)) as Hrow.
  { intros c Hc. rewrite <- Hfixed; [|split; simpl; lia|intros [= ?]; lia].
    apply Hd; [done|split; simpl; lia|by left|intros [= ?]; lia|].
    specialize (Hfull _ H88). lia. }
  apply grid_ext; [done..|]. intros q Hq.
  destruct (decide (q = (8, 8))) as [->|Hne]; [|by apply Hfixed].
  specialize (Hfull _ H88).
  pose proof (Hrow 0 ltac:(lia)) as H0. pose proof (Hrow 1 ltac:(lia)) as H1.
  pose proof (Hrow 2 ltac:(lia)) as H2. pose proof (Hrow 3 ltac:(lia)) as H3.
  pose proof (Hrow 4 ltac:(lia)) as H4. pose proof (Hrow 5 ltac:(lia)) as H5.
  pose proof (Hrow 6 ltac:(lia)) as H6. pose proof (Hrow 7 ltac:(lia)) as H7.
  change (cell full_grid (8, 0)) with 3 in H0.
  change (cell full_grid (8, 1)) with 4 in H1.
  change (cell full_grid (8, 2)) with 5 in H2.
  change (cell full_grid (8, 3)) with 2 in H3.
  change (cell full_grid (8, 4)) with 8 in H4.
  change (cell full_grid (8, 5)) with 6 in H5.
  change (cell full_grid (8, 6)) with 1 in H6.
  change (cell full_grid (8, 7)) with 7 in H7.
  change (cell full_grid (8, 8)) with 9. lia.
Qed.

Lemma solve_unique_solution_witness :
  ∃ self', solve 81 0 0 one_blank = (Ret true, self') ∧ _puzzle self' = full_grid.
Proof.
  destruct one_blank_checks as (Hwf & Hdig & Hno & Hwf' & Hkeep & Hsolved).
  apply (solve_unique_solution 81 one_blank full_grid);
    [lia|exact Hwf|exact Hdig|exact Hno|exact Hwf'|exact Hkeep|exact Hsolved|].
  exact one_blank_unique.
Defined.

(** X7.  Running [solve(0, 0)] again on the grid a run left behind
    returns the same boolean and changes nothing: a solved grid is
    accepted as it is, and a puzzle found unsolvable (whose grid was
    restored) is found unsolvable again. *)
Theorem solve_again (fuel fuel' : nat) (self self' : Sudoku) (b : bool) :
  (81 ≤ fuel)%nat → (81 ≤ fuel')%nat → wf (_puzzle self) →
  solve fuel 0 0 self = (Ret b, self') →
  ∃ self'', solve fuel' 0 0 self' = (Ret b, self'')
            ∧ _puzzle self'' = _puzzle self'.
Proof.
  intros Hfuel Hfuel' Hwf Hrun.
  destruct (solve_outcome fuel self _ self' Hfuel Hwf Hrun) as (b0 & [= <-] & Hpost).
  pose proof (post_reach self b self' Hwf Hpost) as (Hwf' & _).
  destruct Hpost as [_ Hb]. destruct b.
  - destruct Hb as [Hc _]. apply full_outcome; [done..|].
    intros q Hq. apply (completion_full 0 (_puzzle self)); [done..|].
    destruct Hq. unfold idx. lia.
  - destruct Hb as [Heq Hnone].
    destruct (solve_contract fuel' self' Hfuel' Hwf') as (b' & self'' & Hrun' & _ & Hb').
    rewrite Heq in Hb'. destruct b'.
    + destruct Hb' as [Hc _]. by destruct (Hnone _ Hc).
    + destruct Hb' as [Hsame _]. exists self''. by rewrite Heq.
Qed.

Lemma solve_again_witness :
  ∃ self'', solve 90 0 0 (solve 81 0 0 four_blanks).2 = (Ret true, self'')
            ∧ _puzzle self'' = _puzzle (solve 81 0 0 four_blanks).2.
Proof.
  apply (solve_again 81 90 four_blanks (solve 81 0 0 four_blanks).2 true);
    [lia|lia|apply wf_check; reflexivity|vm_compute; reflexivity].
Defined.

(** X8.  Whatever the fixed digits are (no validity is assumed), when
    [solve(0, 0)] returns true no cell of the grid is zero, and every
    cell that was blank holds a digit 1..9 that no other cell of its
    row, column or box holds. *)
Theorem solve_true_fills (fuel : nat) (self self' : Sudoku) :
  (81 ≤ fuel)%nat → wf (_puzzle self) →
  solve fuel 0 0 self = (Ret true, self') →
  ∀ q, inr q →
    cell (_puzzle self') q ≠ 0
    ∧ (cell (_puzzle self) q = 0 →
       1 ≤ cell (_puzzle self') q ≤ 9
       ∧ ∀ r, inr r → peer q r → r ≠ q →
              cell (_puzzle self') r ≠ cell (_puzzle self') q).
Proof.
  intros Hfuel Hwf Hrun q Hq.
  destruct (solve_outcome fuel self _ self' Hfuel Hwf Hrun) as (b & [= <-] & _ & Hc & _).
  assert (0 ≤ idx q) as Hrank by (destruct Hq; unfold idx; lia).
  split; [by apply (completion_full 0 (_puzzle self))|].
  intros Hz. destruct Hc as (_ & _ & Hset). by apply Hset.
Qed.

Lemma solve_true_fills_witness :
  cell (_puzzle (solve 81 0 0 double_five).2) (8, 8) ≠ 0
  ∧ (cell (_puzzle double_five) (8, 8) = 0 →
     1 ≤ cell (_puzzle (solve 81 0 0 double_five).2) (8, 8) ≤ 9
     ∧ ∀ r, inr r → peer (8, 8) r → r ≠ (8, 8) →
            cell (_puzzle (solve 81 0 0 double_five).2) r
            ≠ cell (_puzzle (solve 81 0 0 double_five).2) (8, 8)).
Proof.
  apply (solve_true_fills 81 double_five (solve 81 0 0 double_five).2);
    [lia|apply wf_check; reflexivity|vm_compute; reflexivity|split; simpl; lia].
Defined.



Example solve_from_last_row :
  _puzzle (solve 9 8 0 four_blanks).2
  = [[0; 0; 4; 6; 7; 8; 9; 1; 2]; [6; 7; 2; 1; 9; 5; 3; 4; 8];
     [1; 9; 8; 3; 4; 2; 5; 6; 7]; [8; 5; 9; 7; 6; 1; 4; 2; 3];
     [4; 2; 6; 8; 5; 3; 7; 9; 1]; [7; 1; 3; 9; 2; 4; 8; 5; 6];
     [9; 6; 1; 5; 3; 7; 2; 8; 4]; [2; 8; 7; 4; 1; 9; 6; 3; 5];
     [3; 4; 5; 2; 8; 6; 1; 7; 9]].
Proof. vm_compute. reflexivity. Qed.

Lemma norm_index_out (len : nat) (k : Z) :
  k < - Z.of_nat len ∨ Z.of_nat len ≤ k → norm_index len k = None.
Proof.
  intros Hk. unfold norm_index.
  destruct (Z.ltb_spec k 0).
  - destruct (Z.leb_spec 0 (k + Z.of_nat len)); [lia|done].
  - destruct (Z.leb_spec 0 k); [|lia].
    destruct (Z.ltb_spec k (Z.of_nat len)); [lia|done].
Qed.

Lemma norm_index_Some (len : nat) (k : Z) (n : nat) :
  norm_index len k = Some n → (n < len)%nat.
Proof.
  unfold norm_index. destruct (Z.ltb_spec k 0).
  - destruct (Z.leb_spec 0 (k + Z.of_nat len)); [|done].
    destruct (Z.ltb_spec (k + Z.of_nat len) (Z.of_nat len)); [|done].
    intros [= <-]. lia.
  - destruct (Z.leb_spec 0 k); [|done].
    destruct (Z.ltb_spec k (Z.of_nat len)); [|done]. intros [= <-]. lia.
Qed.

Lemma puzzle_get_out (self : Sudoku) (i j : Z) :
  wf (_puzzle self) → ¬ (-9 ≤ i < 9 ∧ -9 ≤ j < 9) →
  puzzle_get self i j = Raise IndexError.
Proof.
  intros Hwf Hout. unfold puzzle_get, getitem.
  destruct Hwf as [Hlen Hrows]. rewrite Hlen.
  destruct (norm_index 9 i) as [n|] eqn:Hn; [|done].
  pose proof (norm_index_Some _ _ _ Hn) as Hlt.
  destruct (lookup_lt_is_Some_2 (_puzzle self) n) as [row Hrow]; [lia|].
  rewrite Hrow. cbn.
  rewrite (Forall_lookup_1 _ _ _ _ Hrows Hrow).
  rewrite norm_index_out; [done|].
  destruct (decide (-9 ≤ i < 9)) as [Hi|Hi]; [lia|].
  rewrite norm_index_out in Hn; [done|lia].
Qed.

(** X10.  Started outside the subscripts Python accepts for a 9x9 grid
    (rows and columns -9..8), [solve(i, j)] raises [IndexError] at its
    first read and leaves the object untouched. *)
Theorem solve_out_of_range (fuel : nat) (i j : Z) (self : Sudoku) :
  (1 ≤ fuel)%nat → wf (_puzzle self) → ¬ (-9 ≤ i < 9 ∧ -9 ≤ j < 9) →
  solve fuel i j self = (Raise IndexError, self).
Proof.
  intros Hfuel Hwf Hout. destruct fuel as [|fuel]; [lia|].
  by rewrite solve_S, puzzle_get_out.
Qed.

Lemma solve_out_of_range_witness :
  solve 81 9 0 four_blanks = (Raise IndexError, four_blanks)
  ∧ solve 81 0 (-10) four_blanks = (Raise IndexError, four_blanks).
Proof.
  split.
  - apply (solve_out_of_range 81 9 0 four_blanks);
      [lia|apply wf_check; reflexivity|lia].
  - apply (solve_out_of_range 81 0 (-10) four_blanks);
      [lia|apply wf_check; reflexivity|lia].
Defined.

(** ** More on [_is_valid_guess] and [_next_location] *)

(** X11.  The check at [(i, j)] reads the cell [(i, j)] itself, but only
    to compare it with the candidate: storing any other value there
    does not change the answer.  (So the candidate left in the cell by
    a failed descent does not affect the checks that follow.) *)
Theorem valid_guess_after_store (self : Sudoku) (i j c value : Z) :
  wf (_puzzle self) → inr (i, j) →
  cell (_puzzle self) (i, j) ≠ value → c ≠ value →
  ∃ self1,
    puzzle_set i j c self = (Ret (), self1)
    ∧ _is_valid_guess self1 i j value = _is_valid_guess self i j value.
Proof.
  intros Hwf Hp Hold Hnew.
  destruct (puzzle_set_wf self i j c Hwf Hp) as (g1 & Hset & Hwf1 & Hc & Hother).
  eexists. split; [done|].
  destruct (is_valid_guess_legal self i j value Hwf Hp) as (b & -> & Hb).
  destruct (is_valid_guess_legal (mkSudoku g1 (Write i j c g1 :: history self))
              i j value Hwf1 Hp) as (b1 & -> & Hb1).
  simpl in Hb1. f_equal. apply eq_true_iff_eq. rewrite Hb, Hb1.
  split; intros Hl q Hq Hpeer;
    (destruct (decide (q = (i, j))) as [->|Hne]; [congruence|]).
  - rewrite <- Hother by done. by apply Hl.
  - rewrite Hother by done. by apply Hl.
Qed.

Lemma valid_guess_after_store_witness :
  ∃ self1,
    puzzle_set 0 0 3 four_blanks = (Ret (), self1)
    ∧ _is_valid_guess self1 0 0 5 = _is_valid_guess four_blanks 0 0 5.
Proof.
  apply (valid_guess_after_store four_blanks 0 0 3 5);
    [apply wf_check; reflexivity|split; simpl; lia
    |vm_compute; discriminate|lia].
Defined.

Lemma steps_add (n m : nat) (p : pos) :
  steps (n + m) p = steps n p ≫= steps m.
Proof.
  revert p. induction n as [|n IH]; intros p; [done|].
  simpl. destruct (_next_location p.1 p.2) as [q|]; [apply IH|done].
Qed.

Lemma steps_rank (n : nat) (p : pos) :
  inr p → idx p + Z.of_nat n ≤ 80 →
  ∃ q, steps n p = Some q ∧ inr q ∧ idx q = idx p + Z.of_nat n.
Proof.
  revert p. induction n as [|n IH]; intros [i j] Hp Hn.
  { exists (i, j). split_and!; [done..|lia]. }
  simpl. destruct (_next_location i j) as [[i' j']|] eqn:Hnext.
  - destruct (next_location_Some i j i' j' Hp Hnext) as [Hq Hrank].
    destruct (IH (i', j') Hq) as (q & Hsteps & Hin & Hidx); [lia|].
    exists q. split_and!; [done..|lia].
  - apply next_location_None in Hnext; [lia|done].
Qed.

(** X12.  Iterating [_next_location] walks the grid in row-major order
    without skipping or repeating a cell: from a position [p] it
    reaches every later position [q] after exactly [rank q - rank p]
    steps, and after [81 - rank p] steps it has run off the end. *)
Theorem steps_reach (p : pos) :
  inr p →
  (∀ q, inr q → idx p ≤ idx q → steps (Z.to_nat (idx q - idx p)) p = Some q)
  ∧ steps (Z.to_nat (81 - idx p)) p = None.
Proof.
  intros Hp. split.
  - intros q Hq Hle.
    destruct (steps_rank (Z.to_nat (idx q - idx p)) p Hp) as (q' & Hsteps & Hq' & Hidx).
    { destruct Hq. unfold idx in *. lia. }
    rewrite Hsteps. f_equal. apply idx_inj; [done..|lia].
  - assert (idx p ≤ 80) as Hmax by (destruct Hp; unfold idx; lia).
    replace (Z.to_nat (81 - idx p)) with (Z.to_nat (80 - idx p) + 1)%nat by lia.
    rewrite steps_add.
    destruct (steps_rank (Z.to_nat (80 - idx p)) p Hp) as (q & -> & Hq & Hidx); [lia|].
    assert (q = (8, 8)) as ->; [|done].
    apply idx_inj; [done|split; simpl; lia|]. unfold idx at 2. simpl. lia.
Qed.

Lemma steps_reach_witness :
  steps (Z.to_nat (idx (8, 8) - idx (0, 0))) (0, 0) = Some (8, 8)
  ∧ steps (Z.to_nat (81 - idx (0, 0))) (0, 0) = None.
Proof.
  destruct (steps_reach (0, 0)) as [Hreach Hend]; [split; simpl; lia|].
  split; [|exact Hend].
  apply (Hreach (8, 8)); [split; simpl; lia|vm_compute; discriminate].
Defined.

(** ** The constructor followed by [solve] *)

(** X13.  For every string of exactly 81 decimal digits, [Sudoku(string)]
    followed by [solve()] raises nothing: the constructor returns a
    fresh object and the search returns a boolean. *)
Theorem init_then_solve `{db : UnicodeDb} (fuel : nat) (string : str) :
  (81 ≤ fuel)%nat → length string = 81%nat → all_digits string →
  ∃ self (b : bool) self',
    __init__ string = Ret self ∧ solve fuel 0 0 self = (Ret b, self').
Proof.
  intros Hfuel Hlen Hall.
  exists (mkSudoku (map (map value) (chunks string)) []).
  destruct (solve_contract fuel (mkSudoku (map (map value) (chunks string)) []) Hfuel)
    as (b & self' & Hrun & _); [by apply init_shape|].
  exists b, self'. split; [|done].
  unfold __init__. by rewrite create_digits.
Qed.

Lemma init_then_solve_witness :
  ∃ self (b : bool) self',
    of_literal (db := arabic_indic)
      "534678912672195348198342567859761423426853791713924856961537284287419635945286170"
    = Ret self
    ∧ solve 81 0 0 self = (Ret b, self').
Proof.
  apply (init_then_solve (db := arabic_indic) 81 (chars_of
    "534678912672195348198342567859761423426853791713924856961537284287419635945286170"));
    [lia|reflexivity|].
  apply (bool_decide_unpack _). vm_compute. exact I.
Defined.

Lemma any_of_ext (f g : Z → result bool) (ks : list Z) :
  (∀ k, k ∈ ks → f k = g k) → any_of f ks = any_of g ks.
Proof.
  induction ks as [|k ks IH]; intros Hfg; [done|].
  simpl. rewrite (Hfg k) by left. rewrite IH; [done|].
  intros k' Hk'. apply Hfg. by right.
Qed.

Lemma any_of_fmap (f : Z → result bool) (h : Z → Z) (ks : list Z) :
  any_of f (h <$> ks) = any_of (λ k, f (h k)) ks.
Proof.
  induction ks as [|k ks IH]; [done|].
  rewrite fmap_cons. cbn [any_of]. by rewrite IH.
Qed.

Lemma range_shift (a b d : Z) : range (d + a) (d + b) = Z.add d <$> range a b.
Proof. unfold range. rewrite fmap_add_seqZ. f_equal. lia. Qed.

Lemma norm_index_neg (len : nat) (k : Z) :
  - Z.of_nat len ≤ k < 0 → norm_index len k = norm_index len (k + Z.of_nat len).
Proof.
  intros Hk. unfold norm_index.
  destruct (Z.ltb_spec k 0); [|lia].
  destruct (Z.ltb_spec (k + Z.of_nat len) 0); [lia|done].
Qed.

Lemma puzzle_get_row_alias (self : Sudoku) (i j : Z) :
  wf (_puzzle self) → -9 ≤ i < 0 →
  puzzle_get self i j = puzzle_get self (i + 9) j.
Proof.
  intros [Hlen _] Hi. unfold puzzle_get, getitem.
  rewrite Hlen. by rewrite (norm_index_neg 9 i).
Qed.

Lemma puzzle_get_col_alias (self : Sudoku) (i j : Z) :
  wf (_puzzle self) → -9 ≤ j < 0 →
  puzzle_get self i j = puzzle_get self i (j + 9).
Proof.
  intros [Hlen Hrows] Hj. unfold puzzle_get, getitem.
  destruct (norm_index _ i) as [n|]; [|done].
  destruct (_puzzle self !! n) as [row|] eqn:Hrow; [|done]. cbn.
  rewrite (Forall_lookup_1 _ _ _ _ Hrows Hrow). by rewrite (norm_index_neg 9 j).
Qed.

Lemma box_start_neg (i : Z) :
  -9 ≤ i < 0 →
  -9 ≤ i / 3 * 3 ∧ i / 3 * 3 + 3 ≤ 0 ∧ (i + 9) / 3 * 3 = 9 + i / 3 * 3.
Proof.
  intros Hi. pose proof (Z.div_mod i 3). pose proof (Z.mod_pos_bound i 3).
  replace (i + 9) with (i + 3 * 3) by lia. rewrite Z.div_add by lia. lia.
Qed.

(** X14.  Subscripts of [_is_valid_guess] on a 9x9 grid follow Python's
    rules: a row outside -9..8 raises [IndexError]; a row or a column
    in -9..-1 is the row or column 9 higher, for the row scan, the
    column scan and the box alike. *)
Theorem is_valid_guess_subscripts (self : Sudoku) (i j value : Z) :
  wf (_puzzle self) →
  (¬ (-9 ≤ i < 9) → _is_valid_guess self i j value = Raise IndexError)
  ∧ (-9 ≤ i < 0 →
     _is_valid_guess self i j value = _is_valid_guess self (i + 9) j value)
  ∧ (-9 ≤ j < 0 →
     _is_valid_guess self i j value = _is_valid_guess self i (j + 9) value).
Proof.
  intros Hwf. split_and!.
  - intros Hout. unfold _is_valid_guess, range.
    rewrite (seqZ_cons 0 (9 - 0)) by lia.
    cbn [any_of].
    assert (holds self value i 0 = Raise IndexError) as ->; [|done].
    unfold holds. rewrite puzzle_get_out; [done..|lia].
  - intros Hi. unfold _is_valid_guess.
    destruct (box_start_neg i Hi) as (Hlo & Hhi & ->).
    rewrite (any_of_ext (λ c, holds self value i c)
               (λ c, holds self value (i + 9) c)); cycle 1.
    { intros c _. unfold holds. by rewrite puzzle_get_row_alias. }
    destruct (any_of (λ c, holds self value (i + 9) c) (range 0 9)) as [[|]| |];
      try done. cbn.
    destruct (any_of (λ r, holds self value r j) (range 0 9)) as [[|]| |];
      try done. cbn.
    replace (9 + i / 3 * 3 + 3) with (9 + (i / 3 * 3 + 3)) by lia.
    rewrite range_shift, any_of_fmap.
    rewrite (any_of_ext _ (λ r, any_of (λ c, holds self value (9 + r) c)
                                  (range (j / 3 * 3) (j / 3 * 3 + 3)))); [done|].
    intros r Hr%elem_of_range. apply any_of_ext. intros c _. unfold holds.
    rewrite (puzzle_get_row_alias self r) by (done || lia).
    by rewrite (Z.add_comm r 9).
  - intros Hj. unfold _is_valid_guess.
    destruct (box_start_neg j Hj) as (Hlo & Hhi & ->).
    destruct (any_of (λ c, holds self value i c) (range 0 9)) as [[|]| |];
      try done. cbn.
    rewrite (any_of_ext (λ r, holds self value r j)
               (λ r, holds self value r (j + 9))); cycle 1.
    { intros r _. unfold holds. by rewrite puzzle_get_col_alias. }
    destruct (any_of (λ r, holds self value r (j + 9)) (range 0 9)) as [[|]| |];
      try done. cbn.
    replace (9 + j / 3 * 3 + 3) with (9 + (j / 3 * 3 + 3)) by lia.
    rewrite range_shift.
    rewrite (any_of_ext _ (λ r, any_of (λ c, holds self value r c)
                                  (Z.add 9 <$> range (j / 3 * 3) (j / 3 * 3 + 3))));
      [done|].
    intros r _. rewrite any_of_fmap. apply any_of_ext.
    intros c Hc%elem_of_range. unfold holds.
    rewrite (puzzle_get_col_alias self r c) by (done || lia).
    by rewrite (Z.add_comm c 9).
Qed.

Lemma is_valid_guess_subscripts_witness :
  _is_valid_guess four_blanks 9 0 3 = Raise IndexError
  ∧ _is_valid_guess four_blanks (-9) 0 3 = _is_valid_guess four_blanks (-9 + 9) 0 3
  ∧ _is_valid_guess four_blanks 8 (-8) 4 = _is_valid_guess four_blanks 8 (-8 + 9) 4.
Proof.
  assert (wf (_puzzle four_blanks)) as Hwf by (apply wf_check; reflexivity).
  split_and!.
  - apply (proj1 (is_valid_guess_subscripts four_blanks 9 0 3 Hwf)). lia.
  - apply (proj1 (proj2 (is_valid_guess_subscripts four_blanks (-9) 0 3 Hwf))). lia.
  - apply (proj2 (proj2 (is_valid_guess_subscripts four_blanks 8 (-8) 4 Hwf))). lia.
Defined.

(** ** Shape and alphabet are kept *)

Lemma reach_digits (g g' : grid) : reach g g' → digits g → digits g'.
Proof.
  intros (_ & Hkeep & Hnew) Hdig q Hq.
  destruct (decide (cell g q = 0)) as [Hz|Hnz].
  - destruct (decide (cell g' q = 0)) as [->|Hnz']; [lia|].
    destruct (Hnew q Hq Hz Hnz') as [? _]. lia.
  - rewrite Hkeep by done. by apply Hdig.
Qed.

(** X15.  [solve(0, 0)] keeps the grid a 9x9 grid, and a grid of digits
    0..9 a grid of digits: this holds of the grid it returns with and
    of the grid after each of its stores. *)
Theorem solve_keeps_shape (fuel : nat) (self : Sudoku) (r : result bool)
    (self' : Sudoku) (evs : list event) :
  (81 ≤ fuel)%nat → wf (_puzzle self) →
  solve fuel 0 0 self = (r, self') →
  history self' = evs ++ history self →
  (wf (_puzzle self') ∧ (digits (_puzzle self) → digits (_puzzle self')))
  ∧ ∀ i j v h, Write i j v h ∈ evs →
      wf h ∧ (digits (_puzzle self) → digits h).
Proof.
  intros Hfuel Hwf Hrun Hevs.
  destruct (solve_outcome fuel self r self' Hfuel Hwf Hrun) as (b & _ & Hpost).
  pose proof (post_reach self b self' Hwf Hpost) as Hreach.
  split.
  - split; [by destruct Hreach|]. by apply reach_digits.
  - intros i j v h Hin. destruct Hpost as [Hlog _].
    pose proof (logged_events _ _ _ _ Hlog Hevs) as Hall.
    rewrite Forall_forall in Hall. destruct (Hall _ Hin) as (_ & _ & Hh).
    split; [by destruct Hh|]. by apply reach_digits.
Qed.

Lemma solve_keeps_shape_witness :
  (wf (_puzzle (solve 81 0 0 four_blanks).2)
   ∧ (digits (_puzzle four_blanks) → digits (_puzzle (solve 81 0 0 four_blanks).2)))
  ∧ wf after_first_store
  ∧ (digits (_puzzle four_blanks) → digits after_first_store).
Proof.
  destruct (solve_keeps_shape 81 four_blanks (solve 81 0 0 four_blanks).1
              (solve 81 0 0 four_blanks).2 (history (solve 81 0 0 four_blanks).2))
    as [Hfinal Hstores].
  - lia.
  - apply wf_check; reflexivity.
  - vm_compute; reflexivity.
  - vm_compute; reflexivity.
  - split; [exact Hfinal|].
    exact (Hstores 0 0 3 after_first_store first_store_logged).
Defined.
